(** * C_deStructor: a shallow embedding of [C_deStructor.py]

    The Python class [C_deStructor] converts a C initializer written against a
    "full" struct schema into an initializer shaped after a "view" schema.
    This file embeds the class method by method and states the properties of
    the specification over the embedding.

    Conventions of the embedding.
    - Text is [string] over 7-bit ASCII; Python's Unicode classes ([\w], [\d],
      [\s], [str.isspace]) are taken on that range.
    - A Python [dict] used only through [in], [get] and item assignment is a
      [gmap]; a [dict] that is iterated ([view_tree]) is an association list
      with in-place update.
    - Exceptions are the constructors of [exn]; a method that may raise
      returns [result].  Running out of the recursion budget of a recursive
      method is [RecursionError].
    - Files are given by their contents (what [f.read()] returns). *)

From stdpp Require Import gmap strings list fin_maps pretty.
From Stdlib Require Import Ascii ZArith.

Local Open Scope string_scope.
Local Open Scope list_scope.
Local Open Scope Z_scope.

(** ** Exceptions and the error monad *)

Inductive exn : Set :=
| ValueError | IndexError | AttributeError | TypeError | KeyError
| RecursionError | OverflowError.

Inductive result (A : Type) : Type :=
| Ok (a : A)
| Raise (e : exn).
Arguments Ok {A} a.
Arguments Raise {A} e.

Global Instance result_ret : MRet result := λ A a, Ok a.
Global Instance result_bind : MBind result := λ A B f m,
  match m with Ok a => f a | Raise e => Raise e end.
Global Instance result_fmap : FMap result := λ A B f m,
  match m with Ok a => Ok (f a) | Raise e => Raise e end.

Global Instance exn_eq_dec : EqDecision exn.
Proof. solve_decision. Defined.

(** ** Characters and Python string methods *)

Definition newline : ascii := "010"%char.
Definition dquote : ascii := "034"%char.
(** The text of a line break. *)
Definition nl : string := String newline "".

Definition char_in (lo hi : nat) (c : ascii) : bool :=
  (lo <=? nat_of_ascii c)%nat && (nat_of_ascii c <=? hi)%nat.

(** [\d] *)
Definition is_digit (c : ascii) : bool := char_in 48 57 c.
(** [[A-Za-z_]] *)
Definition is_id_start (c : ascii) : bool :=
  char_in 65 90 c || char_in 97 122 c || bool_decide (c = "_"%char).
(** [\w] *)
Definition is_word (c : ascii) : bool := is_id_start c || is_digit c.
(** [\s] and [str.isspace]: TAB LF VT FF CR, FS GS RS US, space. *)
Definition is_space (c : ascii) : bool :=
  char_in 9 13 c || char_in 28 31 c || bool_decide (c = " "%char).

Definition char_is (c : ascii) : ascii → bool := λ x, bool_decide (x = c).
Definition char_not (cs : list ascii) : ascii → bool :=
  λ x, negb (bool_decide (x ∈ cs)).

Fixpoint lstrip_by (p : ascii → bool) (s : string) : string :=
  match s with
  | String c s' => if p c then lstrip_by p s' else s
  | EmptyString => s
  end.

Definition rstrip_by (p : ascii → bool) (s : string) : string :=
  String.rev (lstrip_by p (String.rev s)).

(** [s.strip()] *)
Definition strip (s : string) : string := rstrip_by is_space (lstrip_by is_space s).

(** [s.lstrip('_')] *)
Definition lstrip_underscore (s : string) : string := lstrip_by (char_is "_") s.

(** [sep.join(parts)] *)
Fixpoint join (sep : string) (parts : list string) : string :=
  match parts with
  | [] => ""
  | [p] => p
  | p :: ps => p +:+ sep +:+ join sep ps
  end.

(** [s.startswith(p)] *)
Fixpoint startswith (p s : string) : bool :=
  match p, s with
  | EmptyString, _ => true
  | String a p', String b s' => bool_decide (a = b) && startswith p' s'
  | String _ _, EmptyString => false
  end.

(** [s.split(c, 1)] for a separator known to occur in [s]: the text before
    the first [c] and the text after it. *)
Fixpoint split_once (c : ascii) (s : string) : option (string * string) :=
  match s with
  | EmptyString => None
  | String a s' =>
      if bool_decide (a = c) then Some ("", s')
      else '(k, v) ← split_once c s'; Some (String a k, v)
  end.

(** [f.readlines()]: lines are cut after each LF, which stays in the line. *)
Fixpoint readlines_go (cur : string) (s : string) : list string :=
  match s with
  | EmptyString => if bool_decide (cur = "") then [] else [String.rev cur]
  | String a s' =>
      if bool_decide (a = newline)
      then String.rev (String a cur) :: readlines_go "" s'
      else readlines_go (String a cur) s'
  end.
Definition readlines (s : string) : list string := readlines_go "" s.

(** [s.splitlines()]: cut at LF, CR, CR LF, VT, FF, FS, GS, RS; the
    separators are dropped and no empty last line is produced. *)
Definition is_linebreak (c : ascii) : bool :=
  char_in 10 13 c || char_in 28 30 c.

Fixpoint splitlines_go (cur : string) (s : string) : list string :=
  match s with
  | EmptyString => if bool_decide (cur = "") then [] else [String.rev cur]
  | String a s' =>
      if is_linebreak a then
        String.rev cur ::
          match s' with
          | String b s'' =>
              if bool_decide (a = "013"%char) && bool_decide (b = newline)
              then splitlines_go "" s''
              else splitlines_go "" s'
          | EmptyString => []
          end
      else splitlines_go (String a cur) s'
  end.
Definition splitlines (s : string) : list string := splitlines_go "" s.

(** Decimal value of a string of digits, as [int(text)] computes it. *)
Definition digit_val (c : ascii) : Z := Z.of_nat (nat_of_ascii c) - 48.

Fixpoint int_of_digits_go (acc : Z) (s : string) : Z :=
  match s with
  | EmptyString => acc
  | String c s' => int_of_digits_go (10 * acc + digit_val c) s'
  end.
Definition int_of_digits (s : string) : Z := int_of_digits_go 0 s.

(** [int(float(text))] for the text of a NUMBER token (digits, then
    optionally a dot and more digits).  [float] rounds the
    decimal [num / 10^k] to the nearest binary64 value, ties to even; [int]
    truncates it, and raises [OverflowError] on infinity. *)
Definition int_of_float_text (text : string) : result Z :=
  let '(ip, fp) := default (text, "") (split_once "." text) in
  let num := int_of_digits (ip +:+ fp) in
  let den := 10 ^ Z.of_nat (String.length fp) in
  if num =? 0 then Ok 0 else
  let scaled (e : Z) : Z * Z :=
    if 0 <=? e then (num, den * 2 ^ e) else (num * 2 ^ (- e), den) in
  let e0 := Z.max (Z.log2 num - Z.log2 den - 52) (-1074) in
  let e := if (fst (scaled e0) / snd (scaled e0)) <? 2 ^ 52
           then Z.max (e0 - 1) (-1074) else e0 in
  let '(a, b) := scaled e in
  let q := a / b in
  let r := a mod b in
  let q' := if (b <? 2 * r) || ((b =? 2 * r) && Z.odd q) then q + 1 else q in
  if 0 <=? e then
    if 2 ^ 1024 <=? q' * 2 ^ e then Raise OverflowError else Ok (q' * 2 ^ e)
  else Ok (q' / 2 ^ (- e)).

(** [range(n)] *)
Definition range (n : Z) : list nat := seq 0 (Z.to_nat n).

(** [f"{i}"] for an index of a [range]. *)
Definition fmt (i : nat) : string := pretty i.

(** ** Python's [re]: regular expressions with backtracking

    A pattern is a syntax tree; [matches r st] lists every way [r] can match
    at [st], in the order in which a backtracking matcher tries them, each
    with the text it consumed.  The match [re] reports is the first one. *)

Module Re.

Inductive regex : Type :=
| Eps
| Chr (p : ascii → bool)
| Seq (a b : regex)
| Alt (a b : regex)
| Star (greedy : bool) (a : regex)
| Grp (name : string) (a : regex)
| Bol   (* [^] under re.M *)
| Eos.  (* [$] without re.M *)

(** The matcher's position: the character just before it, the text still
    ahead, the groups captured so far and the group that closed last. *)
Record mstate : Type := MState {
  m_prev : option ascii;
  m_rest : string;
  m_caps : gmap string string;
  m_last : option string
}.

Definition advance (c : ascii) (s : string) (st : mstate) : mstate :=
  MState (Some c) s (m_caps st) (m_last st).

Definition close_group (name text : string) (st : mstate) : mstate :=
  MState (m_prev st) (m_rest st) (<[name := text]> (m_caps st)) (Some name).

Definition then_ (t1 : string) (rs : list (string * mstate)) : list (string * mstate) :=
  (λ '(t2, s2), (t1 +:+ t2, s2)) <$> rs.

(** The loop of a starred pattern: [ma] matches the body once.  An empty turn
    of the body ends the loop. *)
Fixpoint star_loop (ma : mstate → list (string * mstate)) (greedy : bool)
    (fuel : nat) (st : mstate) : list (string * mstate) :=
  match fuel with
  | O => [("", st)]
  | S fuel' =>
      let more := '(t1, s1) ← ma st;
                  if bool_decide (t1 = "") then []
                  else then_ t1 (star_loop ma greedy fuel' s1) in
      if greedy then more ++ [("", st)] else ("", st) :: more
  end.

Fixpoint matches (r : regex) (st : mstate) : list (string * mstate) :=
  match r with
  | Eps => [("", st)]
  | Chr p =>
      match m_rest st with
      | String c s => if p c then [(String c "", advance c s st)] else []
      | EmptyString => []
      end
  | Seq a b => '(t1, s1) ← matches a st; then_ t1 (matches b s1)
  | Alt a b => matches a st ++ matches b st
  | Star greedy a =>
      star_loop (matches a) greedy (S (String.length (m_rest st))) st
  | Grp name a => (λ '(t, s1), (t, close_group name t s1)) <$> matches a st
  | Bol =>
      match m_prev st with
      | None => [("", st)]
      | Some c => if bool_decide (c = newline) then [("", st)] else []
      end
  | Eos =>
      if bool_decide (m_rest st = "") || bool_decide (m_rest st = String newline "")
      then [("", st)] else []
  end.

(** Pattern syntax. *)
Definition plus (greedy : bool) (a : regex) : regex := Seq a (Star greedy a).
Definition opt (a : regex) : regex := Alt a Eps.
Definition chr (c : ascii) : regex := Chr (char_is c).
Fixpoint lit (s : string) : regex :=      (* [re.escape(s)] *)
  match s with
  | EmptyString => Eps
  | String c s' => Seq (chr c) (lit s')
  end.
Fixpoint seqs (rs : list regex) : regex :=
  match rs with
  | [] => Eps
  | [r] => r
  | r :: rs' => Seq r (seqs rs')
  end.
Fixpoint alts (rs : list regex) : regex :=   (* ['|'.join(...)] *)
  match rs with
  | [] => Eps
  | [r] => r
  | r :: rs' => Alt r (alts rs')
  end.
Definition dot : regex := Chr (λ c, negb (bool_decide (c = newline))).
Definition dot_all : regex := Chr (λ _, true).          (* [.] under re.S *)
Definition d : regex := Chr is_digit.
Definition w : regex := Chr is_word.
Definition s : regex := Chr is_space.

(** A match object: the text before the match, the matched text, and the
    matcher's final position. *)
Record Match : Type := MkMatch {
  before : string;
  group0 : string;
  final : mstate
}.

(** [m.group(name)]; a group without name goes by its number. *)
Definition group (m : Match) (name : string) : option string :=
  m_caps (final m) !! name.
(** [m.lastgroup] *)
Definition lastgroup (m : Match) : option string := m_last (final m).

Definition match_at (r : regex) (prev : option ascii) (text : string) : option Match :=
  '(t, st) ← head (matches r (MState prev text ∅ None)); Some (MkMatch "" t st).

(** [re.match(r, text)] *)
Definition re_match (r : regex) (text : string) : option Match :=
  match_at r None text.

Fixpoint search_from (r : regex) (prev : option ascii) (text : string) : option Match :=
  match match_at r prev text with
  | Some m => Some m
  | None =>
      match text with
      | EmptyString => None
      | String c text' =>
          m ← search_from r (Some c) text';
          Some (MkMatch (String c (before m)) (group0 m) (final m))
      end
  end.

(** [re.search(r, text)] *)
Definition search (r : regex) (text : string) : option Match :=
  search_from r None text.

(** [re.finditer(r, text)], with the text left after the last match.  The
    patterns of this program never match the empty string; after an empty
    match the scan moves on by one character, which stays in the text
    between the matches. *)
Definition skipped (c : ascii) (r : list Match * string) : list Match * string :=
  match r with
  | ([], tl) => ([], String c tl)
  | (m :: ms, tl) => (MkMatch (String c (before m)) (group0 m) (final m) :: ms, tl)
  end.

Fixpoint finditer_from (fuel : nat) (r : regex) (prev : option ascii) (text : string)
  : list Match * string :=
  match fuel with
  | O => ([], text)
  | S fuel' =>
      match search_from r prev text with
      | None => ([], text)
      | Some m =>
          let '(ms, tl) :=
            if bool_decide (group0 m = "") then
              match m_rest (final m) with
              | EmptyString => ([], "")
              | String c text' => skipped c (finditer_from fuel' r (Some c) text')
              end
            else finditer_from fuel' r (m_prev (final m)) (m_rest (final m)) in
          (m :: ms, tl)
      end
  end.

Definition finditer (r : regex) (text : string) : list Match :=
  fst (finditer_from (S (String.length text)) r None text).

(** [re.sub(r, '', text)] *)
Definition remove_all (r : regex) (text : string) : string :=
  let '(ms, tl) := finditer_from (S (String.length text)) r None text in
  foldr (λ m acc, before m +:+ acc) tl ms.

End Re.

Import Re.

(** [for x in items: result.extend(f(x))] where [f] may raise. *)
Fixpoint for_extend {A B : Type} (f : A → result (list B)) (items : list A)
  : result (list B) :=
  match items with
  | [] => Ok []
  | x :: xs => r ← f x; rs ← for_extend f xs; Ok (r ++ rs)
  end.

(** Depth at which a recursive method gives up with [RecursionError]. *)
Definition recursion_limit : nat := 1000.

(** ** Tokens and [tokenize] *)

Record Token : Type := MkToken { type : string; value : string }.

(** A field: (name, type, array dimensions or None). *)
Definition Field : Type := string * string * option (list Z).

Definition token_specification : list (string * regex) := [
  ("STRING",    seqs [chr dquote; Star true (Alt (Seq (chr "\") dot) (Chr (char_not [dquote; "\"%char]))); chr dquote]);
  ("NUMBER",    Seq (plus true d) (opt (Grp "3" (Seq (chr ".") (Star true d)))));
  ("ID",        Seq (Chr is_id_start) (Star true w));
  ("LBRACE",    chr "{");
  ("RBRACE",    chr "}");
  ("LBRACKET",  chr "[");
  ("RBRACKET",  chr "]");
  ("SEMICOLON", chr ";");
  ("COMMA",     chr ",");
  ("LPAREN",    chr "(");
  ("RPAREN",    chr ")");
  ("ASSIGN",    chr "=");
  ("DOT",       chr ".");
  ("OTHER",     dot)
].

Definition tok_regex : regex :=
  alts ((λ pair, Grp pair.1 pair.2) <$> token_specification).

(** [value.isspace()] *)
Definition isspace (v : string) : bool :=
  negb (bool_decide (v = "")) && bool_decide (lstrip_by is_space v = "").

Definition tokenize (text : string) : list Token :=
  omap (λ mo,
    let kind := default "" (lastgroup mo) in     (* every match closes a group *)
    let value := group0 mo in
    if bool_decide (kind = "OTHER") && isspace value then None
    else if bool_decide (kind = "OTHER") && negb (bool_decide (value = "_")) then None
    else Some (MkToken kind value)) (finditer tok_regex text).

(** ** [parse_typedef_structs]

    The position [pos] in [tokens] is held as the list of tokens from [pos]
    on: [pos < len(tokens)] says that the list is not empty, [pos += 1] drops
    its head. *)

(** [pos < len(tokens) and tokens[pos].type == ty] *)
Definition at_type (ty : string) (toks : list Token) : bool :=
  match toks with
  | t :: _ => bool_decide (type t = ty)
  | [] => false
  end.

(** [if pos < len(tokens) and tokens[pos].type == ty: pos += 1] *)
Definition skip_type (ty : string) (toks : list Token) : list Token :=
  if at_type ty toks then tail toks else toks.

(** The loop collecting [field_tokens] up to the next SEMICOLON. *)
Fixpoint take_field_tokens (toks : list Token) : list Token * list Token :=
  match toks with
  | t :: rest =>
      if bool_decide (type t = "SEMICOLON") then ([], toks)
      else let '(field_tokens, toks') := take_field_tokens rest in
           (t :: field_tokens, toks')
  | [] => ([], [])
  end.

(** The loop taking trailing [[n]] groups off [field_tokens].  The tokens are
    held last first, so that [field_tokens[-1]], [[-2]] and [[-3]] are the
    first three. *)
Fixpoint strip_dims (rev_tokens : list Token) (array_dims : list Z)
  : result (list Token * list Z) :=
  match rev_tokens with
  | t1 :: t2 :: t3 :: rest =>
      if bool_decide (type t3 = "LBRACKET") && bool_decide (type t2 = "NUMBER")
         && bool_decide (type t1 = "RBRACKET")
      then dim ← int_of_float_text (value t2);
           strip_dims rest (dim :: array_dims)
      else Ok (rev_tokens, array_dims)
  | _ => Ok (rev_tokens, array_dims)
  end.

(** One field statement, once its tokens are known not to be empty. *)
Definition parse_field (field_tokens : list Token) : result Field :=
  '(rev_tokens, array_dims) ← strip_dims (reverse field_tokens) [];
  match rev_tokens with
  | [] => Raise IndexError                      (* field_tokens[-1] *)
  | name_token :: rev_type =>
      let field_name := value name_token in
      let field_type := strip (join " " (value <$> reverse rev_type)) in
      Ok (field_name, field_type,
          match array_dims with [] => None | _ => Some array_dims end)
  end.

(** The loop over the field statements of one struct body. *)
Fixpoint parse_fields (fuel : nat) (toks : list Token) (fields : list Field)
  : result (list Field * list Token) :=
  match fuel with
  | O => Raise RecursionError
  | S fuel' =>
      if bool_decide (toks = []) || at_type "RBRACE" toks then Ok (fields, toks)
      else
        let '(field_tokens, toks1) := take_field_tokens toks in
        let toks2 := skip_type "SEMICOLON" toks1 in
        match field_tokens with
        | [] => parse_fields fuel' toks2 fields            (* continue *)
        | _ => fld ← parse_field field_tokens;
               parse_fields fuel' toks2 (fields ++ [fld])
        end
  end.

Definition is_word_token (word : string) (toks : list Token) : bool :=
  match toks with
  | t :: _ => bool_decide (type t = "ID") && bool_decide (value t = word)
  | [] => false
  end.

Fixpoint parse_structs_loop (fuel : nat) (toks : list Token)
    (structs : gmap string (list Field)) : result (gmap string (list Field)) :=
  match fuel with
  | O => Raise RecursionError
  | S fuel' =>
      match toks with
      | [] => Ok structs
      | _ :: toks1 =>
          if is_word_token "typedef" toks then
            if is_word_token "struct" toks1 then
              let toks2 := tail toks1 in
              if at_type "LBRACE" toks2 then
                '(fields, toks4) ← parse_fields (S (length toks2)) (tail toks2) [];
                let toks5 := skip_type "RBRACE" toks4 in
                match toks5 with
                | t :: toks6 =>
                    if bool_decide (type t = "ID") then
                      parse_structs_loop fuel' (skip_type "SEMICOLON" toks6)
                        (<[value t := fields]> structs)
                    else Raise ValueError
                | [] => Raise ValueError
                end
              else parse_structs_loop fuel' (tail toks2) structs
            else parse_structs_loop fuel' (tail toks1) structs
          else parse_structs_loop fuel' toks1 structs
      end
  end.

(** The loops of [parse_typedef_structs] move forward at every turn: the
    budget of one more than the number of tokens is never used up
    ([parse_typedef_structs_raises]). *)
Definition parse_typedef_structs (tokens : list Token)
  : result (gmap string (list Field)) :=
  parse_structs_loop (S (length tokens)) tokens ∅.

(** ** [flatten_struct_fields] *)

(** [re.sub(r'\[\d+\]', '', path)] *)
Definition normalize_path (path : string) : string :=
  remove_all (seqs [chr "["; plus true d; chr "]"]) path.

(** [explicit_mapping and key in explicit_mapping]: false for [None] and for
    the empty dict. *)
Definition mapping_has (explicit_mapping : option (gmap string string))
    (key : string) : bool :=
  match explicit_mapping with
  | Some m => negb (bool_decide (m = ∅)) && bool_decide (is_Some (m !! key))
  | None => false
  end.

(** [explicit_mapping[key]], read only after [mapping_has]. *)
Definition mapping_get (explicit_mapping : option (gmap string string))
    (key : string) : string :=
  match explicit_mapping with
  | Some m => default "" (m !! key)
  | None => ""
  end.

(** The generator [gen_indices(dims, cur)]. *)
Fixpoint gen_indices (dims : list Z) (cur : string) : list string :=
  match dims with
  | [] => [lstrip_underscore cur]
  | n :: dims' => j ← range n; gen_indices dims' (cur +:+ "_" +:+ fmt j)
  end.

Section flatten.

Context (structs : gmap string (list Field)).
Context (explicit_mapping : option (gmap string string)).

(** [full_source_path] of a field. *)
Definition full_source_path (source_prefix field_name : string) : string :=
  if bool_decide (source_prefix = "") then field_name
  else source_prefix +:+ "." +:+ field_name.

(** [current_output] of a field. *)
Definition current_output (source_prefix field_name : string) : string :=
  let norm_path := normalize_path (full_source_path source_prefix field_name) in
  if mapping_has explicit_mapping norm_path then mapping_get explicit_mapping norm_path
  else if mapping_has explicit_mapping field_name then mapping_get explicit_mapping field_name
  else field_name.

(** [new_output_prefix] of a field. *)
Definition new_output_prefix (source_prefix output_prefix field_name : string) : string :=
  let norm_path := normalize_path (full_source_path source_prefix field_name) in
  let current_output := current_output source_prefix field_name in
  if mapping_has explicit_mapping norm_path || mapping_has explicit_mapping field_name
  then current_output
  else if bool_decide (output_prefix = "") then current_output
       else output_prefix +:+ "_" +:+ current_output.

(** The index suffixes of an array field: [i] for one dimension, the
    [gen_indices] tuples otherwise. *)
Definition index_suffixes (array_dims : list Z) : list string :=
  match array_dims with
  | [count] => fmt <$> range count
  | _ => gen_indices array_dims ""
  end.

(** The body of the loop over the fields of a struct; [recur] is the
    recursive call. *)
Definition flatten_field
    (recur : string → string → string → result (list string))
    (source_prefix output_prefix : string) (fld : Field) : result (list string) :=
  let '(field_name, field_type, array_dims) := fld in
  let full_source_path := full_source_path source_prefix field_name in
  let new_output_prefix := new_output_prefix source_prefix output_prefix field_name in
  if bool_decide (is_Some (structs !! field_type)) then
    match array_dims with
    | None => recur field_type full_source_path new_output_prefix
    | Some dims =>
        for_extend (λ idx,
          recur field_type (full_source_path +:+ "[" +:+ idx +:+ "]")
                (new_output_prefix +:+ "_" +:+ idx)) (index_suffixes dims)
    end
  else
    match array_dims with
    | None | Some [] => Ok [new_output_prefix]
    | Some dims => Ok ((λ idx, new_output_prefix +:+ "_" +:+ idx) <$> index_suffixes dims)
    end.

Fixpoint flatten_struct_fields (fuel : nat)
    (struct_name source_prefix output_prefix : string) : result (list string) :=
  match fuel with
  | O => Raise RecursionError
  | S fuel' =>
      match structs !! struct_name with
      | None => Ok []
      | Some fields =>
          for_extend (flatten_field (flatten_struct_fields fuel') source_prefix output_prefix) fields
      end
  end.

End flatten.

(** ** View schemas: [parse_view_structs] and [build_view_tree] *)

(** A view tree is a Python value: a [str] (a leaf, the name of its type), a
    [dict] from field names to subtrees in insertion order, where an array
    field is the dict with the keys array (an [int]) and fields. *)
#[local] Unset Elimination Schemes.
Inductive vtree : Type :=
| VStr (s : string)
| VInt (n : Z)
| VDict (items : list (string * vtree)).
#[local] Set Elimination Schemes.

(** [d[key] = v] on a dict kept as the list of its items. *)
Fixpoint dict_set {V : Type} (key : string) (v : V) (items : list (string * V))
  : list (string * V) :=
  match items with
  | [] => [(key, v)]
  | (k, v') :: rest =>
      if bool_decide (k = key) then (key, v) :: rest
      else (k, v') :: dict_set key v rest
  end.

Fixpoint dict_get {V : Type} (key : string) (items : list (string * V)) : option V :=
  match items with
  | [] => None
  | (k, v) :: rest => if bool_decide (k = key) then Some v else dict_get key rest
  end.

Definition dict_has {V : Type} (key : string) (items : list (string * V)) : bool :=
  bool_decide (is_Some (dict_get key items)).

(** The pattern of a view struct: typedef, struct, a body without closing
    brace between braces (group 1), the name (group 2), a semicolon. *)
Definition view_struct_re : regex :=
  seqs [lit "typedef"; plus true s; lit "struct"; Star true s; chr "{";
        Grp "1" (Star true (Chr (char_not ["}"%char]))); chr "}"; Star true s;
        Grp "2" (plus true w); Star true s; chr ";"].

(** The pattern of one line of a view struct: type, name, an optional
    bracketed size (groups 3 and 4), a semicolon. *)
Definition view_field_re : regex :=
  seqs [Grp "1" (plus true w); plus true s; Grp "2" (plus true w);
        opt (Grp "3" (seqs [Star true s; chr "["; Star true s;
                            Grp "4" (plus true d); Star true s; chr "]"]));
        chr ";"].

Definition parse_view_line (line : string) : option Field :=
  let line := strip line in
  if bool_decide (line = "") || startswith "//" line then None
  else
    m ← re_match view_field_re line;
    let field_type := default "" (group m "1") in
    let name := default "" (group m "2") in
    let array_dims :=
      match group m "3" with
      | Some (String _ _) => Some [int_of_digits (default "" (group m "4"))]
      | _ => None
      end in
    Some (name, field_type, array_dims).

Definition parse_view_structs (content : string) : gmap string (list Field) :=
  foldl (λ view_structs m,
           let body := default "" (group m "1") in
           let struct_name := default "" (group m "2") in
           <[struct_name := omap parse_view_line (splitlines body)]> view_structs)
        ∅ (finditer view_struct_re content).

Fixpoint build_view_tree (fuel : nat) (view_defs : gmap string (list Field))
    (struct_name : string) : result vtree :=
  match fuel with
  | O => Raise RecursionError
  | S fuel' =>
      match view_defs !! struct_name with
      | None => Ok (VStr struct_name)
      | Some fields =>
          tree ← foldl (λ acc fld,
                   tree ← acc;
                   let '(field_name, field_type, array_dims) := fld in
                   subtree ← (if bool_decide (is_Some (view_defs !! field_type))
                              then build_view_tree fuel' view_defs field_type
                              else Ok (VStr field_type));
                   match array_dims with
                   | Some dims =>
                       let size := match dims with n :: _ => n | [] => 1 end in
                       Ok (dict_set field_name
                             (VDict [("array", VInt size); ("fields", subtree)]) tree)
                   | None => Ok (dict_set field_name subtree tree)
                   end) (Ok []) fields;
          Ok (VDict tree)
      end
  end.

(** ** Initializers: [parse_initialization] and [flatten_initialization] *)

(** A parsed initializer: a [str] or a [list] of parsed initializers. *)
#[local] Unset Elimination Schemes.
Inductive init : Type :=
| IStr (text : string)
| IList (items : list init).
#[local] Set Elimination Schemes.

Definition is_scalar_token (t : Token) : bool :=
  bool_decide (type t ∈ ["NUMBER"; "ID"; "DOT"; "STRING"]).

(** [parse_block] and the loop over the items of a braced block. *)
Fixpoint parse_block (fuel : nat) (toks : list Token) : result (init * list Token) :=
  match fuel with
  | O => Raise RecursionError
  | S fuel' =>
      if at_type "LBRACE" toks then
        '(items, toks') ← parse_items fuel' (tail toks) [];
        Ok (IList items, skip_type "RBRACE" toks')
      else
        match toks with
        | t :: toks' => Ok (IStr (value t), toks')
        | [] => Raise IndexError                   (* tokens[pos] *)
        end
  end
with parse_items (fuel : nat) (toks : list Token) (items : list init)
  : result (list init * list Token) :=
  match fuel with
  | O => Raise RecursionError
  | S fuel' =>
      match toks with
      | [] => Ok (items, toks)
      | t :: toks' =>
          if bool_decide (type t = "RBRACE") then Ok (items, toks)
          else if bool_decide (type t = "LBRACE") then
            '(item, toks'') ← parse_block fuel' toks;
            parse_items fuel' toks'' (items ++ [item])
          else if is_scalar_token t then
            parse_items fuel' toks' (items ++ [IStr (value t)])
          else parse_items fuel' toks' items
      end
  end.

(** The comments taken out before tokenizing: from two slashes to the end
    of the line, and from slash-star to the next star-slash. *)
Definition comment_re : regex :=
  Alt (seqs [lit "//"; Star false dot_all; chr newline])
      (seqs [lit "/*"; Star false dot_all; lit "*/"]).

(** The budget of [parse_block] is never used up
    ([parse_initialization_total]). *)
Definition parse_initialization (init_text : string) : result init :=
  let text := remove_all comment_re init_text in
  let tokens := tokenize text in
  fst <$> parse_block (2 * length tokens + 2) tokens.

Fixpoint flatten_initialization (init_structure : init) : list string :=
  match init_structure with
  | IList items => flat_map flatten_initialization items
  | IStr text => [text]
  end.

(** ** The field map: [generate_field_map] *)

(** A value of the field map: a [str], or the [list] gathered for an array. *)
Inductive fval : Type :=
| FStr (text : string)
| FList (texts : list string).

Global Instance fval_eq_dec : EqDecision fval.
Proof. solve_decision. Defined.

(** The pattern of an indexed name: a lazy non-empty base (group 1), an
    underscore, digits (group 2), the end of the name. *)
Definition indexed_re : regex :=
  seqs [Grp "1" (plus false dot); chr "_"; Grp "2" (plus true d); Eos].

(** [m = re.match(indexed_re, field)] and, on a match, [m.group(1)]. *)
Definition indexed_base (field : string) : option string :=
  m ← re_match indexed_re field; Some (default "" (group m "1")).

(** The first loop of [generate_field_map].  [init_values] is the list from
    [index] on; the loop breaks when it is empty. *)
Fixpoint field_map_loop (field_names init_values : list string)
    (result : gmap string fval) (temp_array : gmap string (list string))
  : gmap string fval * gmap string (list string) :=
  match field_names, init_values with
  | field :: field_names', v :: init_values' =>
      match indexed_base field with
      | Some base =>
          field_map_loop field_names' init_values' result
            (<[base := default [] (temp_array !! base) ++ [v]]> temp_array)
      | None =>
          field_map_loop field_names' init_values' (<[field := FStr v]> result) temp_array
      end
  | _, _ => (result, temp_array)
  end.

(** The second loop stores every list of [temp_array] under its base; the
    bases are distinct keys, so the stores are a union that prefers
    [temp_array]. *)
Definition generate_field_map (field_names init_values : list string)
  : gmap string fval :=
  let '(result, temp_array) := field_map_loop field_names init_values ∅ ∅ in
  (FList <$> temp_array) ∪ result.

(** ** The output: [generate_nested_initializer] *)

Fixpoint for_each {A B : Type} (f : A → result B) (items : list A) : result (list B) :=
  match items with
  | [] => Ok []
  | x :: xs => y ← f x; ys ← for_each f xs; Ok (y :: ys)
  end.

(** [sep.join(parts)] on values: a list among the parts is a [TypeError]. *)
Definition join_values (sep : string) (parts : list fval) : result string :=
  texts ← for_each (λ v, match v with
                         | FStr t => Ok t
                         | FList _ => Raise TypeError
                         end) parts;
  Ok (join sep texts).

Definition braced (parts : list fval) : result fval :=
  text ← join_values ", " parts; Ok (FStr ("{" +:+ text +:+ "}")).

Definition full_key (prefix key : string) : string :=
  if bool_decide (prefix = "") then key else prefix +:+ "_" +:+ key.

Fixpoint generate_nested_initializer (view_tree : vtree)
    (field_map : gmap string fval) (prefix : string) {struct view_tree} : result fval :=
  match view_tree with
  | VStr _ => Ok (default (FStr "0") (field_map !! prefix))
  | VDict items =>
      parts ← (fix loop (items : list (string * vtree)) : result (list fval) :=
        match items with
        | [] => Ok []
        | (key, sub) :: rest =>
            let full_key := full_key prefix key in
            let plain : result fval :=
              match field_map !! full_key with
              | Some v => Ok v
              | None => generate_nested_initializer sub field_map full_key
              end in
            part ← match sub with
                   | VDict sub_items =>
                       if dict_has "array" sub_items && dict_has "fields" sub_items then
                         match dict_get "array" sub_items with
                         | Some (VInt size) =>
                             elems ← for_each (λ i,
                               let elem_key := full_key +:+ "_" +:+ fmt i in
                               match field_map !! elem_key with
                               | Some v => Ok v
                               | None =>
                                   (* sub[fields], rendered at elem_key *)
                                   (fix fields_of (l : list (string * vtree)) : result fval :=
                                      match l with
                                      | [] => Raise KeyError
                                      | (k, v) :: l' =>
                                          if bool_decide (k = "fields")
                                          then generate_nested_initializer v field_map elem_key
                                          else fields_of l'
                                      end) sub_items
                               end) (range size);
                             braced elems
                         | _ => Raise TypeError              (* range(size) *)
                         end
                       else plain
                   | _ => plain
                   end;
            parts ← loop rest;
            Ok (part :: parts)
        end) items;
      braced parts
  | VInt _ => Ok (FStr "0")
  end.

(** ** The class [C_deStructor]

    The object: the constructor's arguments, the attributes [__init__] sets,
    and the attributes that exist only once [extract_declaration_info] has
    found a declaration ([None] while the attribute does not exist).  The
    three files are their contents. *)
Record C_deStructor : Type := MkSelf {
  header_file : string;
  view_file : string;
  init_text : string;
  target_struct : string;
  target_view : string;
  mapping_file : option string;
  specifier : string;
  structs : gmap string (list Field);
  view_defs : gmap string (list Field);
  view_tree : vtree;
  explicit_mapping : gmap string string;
  flat_fields : list string;
  postfix : string;
  prefix : option string;
  var_nameSrc : option string;
  array_size : option (option string);
  init_block : option string
}.

(** [__init__] *)
Definition new (header_file view_file init_text target_struct target_view : string)
    (mapping_file : option string) (specifier : string) : C_deStructor :=
  {| header_file := header_file; view_file := view_file; init_text := init_text;
     target_struct := target_struct; target_view := target_view;
     mapping_file := mapping_file; specifier := specifier;
     structs := ∅; view_defs := ∅; view_tree := VDict [];
     explicit_mapping := ∅; flat_fields := []; postfix := "";
     prefix := None; var_nameSrc := None; array_size := None; init_block := None |}.

(** Reading an attribute that may not exist. *)
Definition getattr {A : Type} (attr : option A) : result A :=
  match attr with
  | Some a => Ok a
  | None => Raise AttributeError
  end.

Definition set_structs (v : gmap string (list Field)) (self : C_deStructor) :=
  {| header_file := header_file self; view_file := view_file self;
     init_text := init_text self; target_struct := target_struct self;
     target_view := target_view self; mapping_file := mapping_file self;
     specifier := specifier self; structs := v; view_defs := view_defs self;
     view_tree := view_tree self; explicit_mapping := explicit_mapping self;
     flat_fields := flat_fields self; postfix := postfix self;
     prefix := prefix self; var_nameSrc := var_nameSrc self;
     array_size := array_size self; init_block := init_block self |}.

Definition set_view (defs : gmap string (list Field)) (tree : vtree)
    (self : C_deStructor) :=
  {| header_file := header_file self; view_file := view_file self;
     init_text := init_text self; target_struct := target_struct self;
     target_view := target_view self; mapping_file := mapping_file self;
     specifier := specifier self; structs := structs self; view_defs := defs;
     view_tree := tree; explicit_mapping := explicit_mapping self;
     flat_fields := flat_fields self; postfix := postfix self;
     prefix := prefix self; var_nameSrc := var_nameSrc self;
     array_size := array_size self; init_block := init_block self |}.

Definition set_explicit_mapping (v : gmap string string) (self : C_deStructor) :=
  {| header_file := header_file self; view_file := view_file self;
     init_text := init_text self; target_struct := target_struct self;
     target_view := target_view self; mapping_file := mapping_file self;
     specifier := specifier self; structs := structs self;
     view_defs := view_defs self; view_tree := view_tree self;
     explicit_mapping := v; flat_fields := flat_fields self;
     postfix := postfix self; prefix := prefix self;
     var_nameSrc := var_nameSrc self; array_size := array_size self;
     init_block := init_block self |}.

Definition set_flat_fields (v : list string) (self : C_deStructor) :=
  {| header_file := header_file self; view_file := view_file self;
     init_text := init_text self; target_struct := target_struct self;
     target_view := target_view self; mapping_file := mapping_file self;
     specifier := specifier self; structs := structs self;
     view_defs := view_defs self; view_tree := view_tree self;
     explicit_mapping := explicit_mapping self; flat_fields := v;
     postfix := postfix self; prefix := prefix self;
     var_nameSrc := var_nameSrc self; array_size := array_size self;
     init_block := init_block self |}.

Definition set_postfix (v : string) (self : C_deStructor) :=
  {| header_file := header_file self; view_file := view_file self;
     init_text := init_text self; target_struct := target_struct self;
     target_view := target_view self; mapping_file := mapping_file self;
     specifier := specifier self; structs := structs self;
     view_defs := view_defs self; view_tree := view_tree self;
     explicit_mapping := explicit_mapping self; flat_fields := flat_fields self;
     postfix := v; prefix := prefix self;
     var_nameSrc := var_nameSrc self; array_size := array_size self;
     init_block := init_block self |}.

Definition set_declaration (pre var : string) (size : option string) (block : string)
    (self : C_deStructor) :=
  {| header_file := header_file self; view_file := view_file self;
     init_text := init_text self; target_struct := target_struct self;
     target_view := target_view self; mapping_file := mapping_file self;
     specifier := specifier self; structs := structs self;
     view_defs := view_defs self; view_tree := view_tree self;
     explicit_mapping := explicit_mapping self; flat_fields := flat_fields self;
     postfix := postfix self; prefix := Some pre; var_nameSrc := Some var;
     array_size := Some size; init_block := Some block |}.

(** [load_full_structs] *)
Definition load_full_structs (self : C_deStructor) : result C_deStructor :=
  let tokens := tokenize (header_file self) in
  structs ← parse_typedef_structs tokens;
  Ok (set_structs structs self).

(** [load_view_structs] *)
Definition load_view_structs (self : C_deStructor) : result C_deStructor :=
  let view_defs := parse_view_structs (view_file self) in
  view_tree ← build_view_tree recursion_limit view_defs (target_view self);
  Ok (set_view view_defs view_tree self).

(** [load_mapping] *)
Definition load_mapping (self : C_deStructor) : C_deStructor :=
  match mapping_file self with
  | Some content =>
      set_explicit_mapping
        (foldl (λ mapping line,
                  let line := strip line in
                  if negb (bool_decide (line = "")) && negb (startswith "#" line) then
                    match split_once ":" line with
                    | Some (key, value) => <[strip key := strip value]> mapping
                    | None => mapping
                    end
                  else mapping) ∅ (readlines content)) self
  | None => self
  end.

(** [check_structure_type] *)
Definition check_structure_type (self : C_deStructor) (flat_values : list string)
  : result bool :=
  names ← flatten_struct_fields (structs self) (Some (explicit_mapping self))
            recursion_limit (target_struct self) "" "";
  let expected := length names in
  Ok (negb (length flat_values <? expected)%nat).

(** The steps of [process_structure] on one instance that passed the check. *)
Definition render_instance (self : C_deStructor) (flat_values : list string)
  : result (fval * C_deStructor) :=
  names ← flatten_struct_fields (structs self) (Some (explicit_mapping self))
            recursion_limit (target_struct self) "" "";
  let self := set_flat_fields names self in
  let field_map := generate_field_map (flat_fields self) flat_values in
  out ← generate_nested_initializer (view_tree self) field_map "";
  Ok (out, self).

(** The loop of [process_structure] over the elements of an array of
    structures. *)
Fixpoint process_items (self : C_deStructor) (items : list init)
    (result_items : list fval) : result (list fval * C_deStructor) :=
  match items with
  | [] => Ok (result_items, self)
  | item :: items' =>
      let flat_values := flatten_initialization item in
      ok ← check_structure_type self flat_values;
      if negb ok then process_items self items' result_items       (* continue *)
      else
        '(out, self) ← render_instance self flat_values;
        process_items self items' (result_items ++ [out])
  end.


(** The text of an array of structures: the items, one per line, between
    braces. *)
Definition array_output (r : list fval * C_deStructor) : result (fval * C_deStructor) :=
  let '(result_items, self) := r in
  body ← join_values ("," +:+ nl) result_items;
  Ok (FStr ("{" +:+ nl +:+ body +:+ nl +:+ "}"), self).

(** [process_structure], from the parsed initializer on. *)
Definition process_parsed (self : C_deStructor) (parsed : init)
  : result (fval * C_deStructor) :=
  match parsed with
  | IList ((IList _ :: _) as items) =>
      process_items self items [] ≫= array_output
  | _ =>
      let flat_values := flatten_initialization parsed in
      ok ← check_structure_type self flat_values;
      if negb ok then Ok (FStr "", self)
      else render_instance self flat_values
  end.

Definition process_structure (self : C_deStructor) (init_block : string)
  : result (fval * C_deStructor) :=
  parsed ← parse_initialization init_block;
  process_parsed self parsed.

(** The pattern of a declaration, under re.S and re.M: at the start of a
    line, specifier words (group spec), the struct name, the variable (group
    var), an optional bracketed size (group 3, the digits in group size), an
    equals sign, the shortest braced text (group init) that a semicolon
    follows. *)
Definition declaration_re (target_struct : string) : regex :=
  seqs [Bol; Grp "spec" (Star true (Seq (plus true w) (plus true s)));
        lit target_struct; plus true s; Grp "var" (plus true w); Star true s;
        opt (Grp "3" (seqs [chr "["; Star true s; Grp "size" (Star true d);
                            Star true s; chr "]"]));
        Star true s; chr "="; Star true s;
        Grp "init" (seqs [chr "{"; Star false dot_all; chr "}"]);
        Star true s; chr ";"].

(** [extract_declaration_info] *)
Definition extract_declaration_info (self : C_deStructor) : C_deStructor :=
  match search (declaration_re (target_struct self)) (init_text self) with
  | Some m =>
      let spec := strip (default "" (group m "spec")) in
      let var_name := default "" (group m "var") in
      let size := group m "size" in
      let array_size :=
        match group m "3" with
        | Some (String _ _) =>
            if bool_decide (size = Some "") then Some "[]" else size
        | _ => None
        end in
      let init_block := default "" (group m "init") in
      set_declaration (if bool_decide (spec = "") then "" else spec +:+ " ")
        var_name array_size init_block self
  | None => self
  end.

(** [generate_declaration] *)
Definition generate_declaration (self : C_deStructor) (init_str var_name : string)
  : result string :=
  array_size ← getattr (array_size self);
  prefix ← getattr (prefix self);
  let head := prefix +:+ " " +:+ target_struct self +:+ " " +:+ var_name in
  let tail := postfix self +:+ " = " +:+ init_str +:+ ";" in
  match array_size with
  | Some size =>
      if bool_decide (size = "[]") then Ok (head +:+ "[]" +:+ tail)
      else Ok (head +:+ "[" +:+ size +:+ "]" +:+ tail)
  | None => Ok (head +:+ tail)
  end.

(** [setPostfix] *)
Definition setPostfix (self : C_deStructor) (postfix : string) : C_deStructor :=
  set_postfix (if bool_decide (postfix = "") then "" else postfix +:+ " ") self.

(** An f-string field formats a value of the field map: a [str] as it is, a
    list of plain texts as its [repr]. *)
Definition format_value (v : fval) : string :=
  match v with
  | FStr t => t
  | FList ts => "[" +:+ join ", " ((λ t, "'" +:+ t +:+ "'") <$> ts) +:+ "]"
  end.

(** [run] *)
Definition run (self : C_deStructor) (newVarName : string) : result string :=
  self ← load_full_structs self;
  self ← load_view_structs self;
  let self := load_mapping self in
  let self := extract_declaration_info self in
  init_block ← getattr (init_block self);
  if bool_decide (init_block = "") then Ok ""
  else
    '(init_str, self) ← process_structure self init_block;
    var_name ← (if bool_decide (newVarName = "") then getattr (var_nameSrc self)
                else Ok newVarName);
    generate_declaration self (format_value init_str) var_name.

(** ** Definitions for the statements *)

(** Every character of [s] satisfies [p]. *)
Fixpoint string_forall (p : ascii → bool) (s : string) : bool :=
  match s with
  | EmptyString => true
  | String c s' => p c && string_forall p s'
  end.

(** The table seen as a partial function: no table and the empty table have
    no entry. *)
Definition mapping_lookup (explicit_mapping : option (gmap string string))
    (key : string) : option string :=
  m ← explicit_mapping; m !! key.

(** Normalization as the specification words it: every bracketed index of
    the path is taken out, from an opening bracket to the closing bracket
    that follows it.  [inside] says that the text read is within brackets. *)
Fixpoint spec_strip_indices (inside : bool) (path : string) : string :=
  match path with
  | EmptyString => ""
  | String c path' =>
      if inside then spec_strip_indices (negb (bool_decide (c = "]"%char))) path'
      else if bool_decide (c = "["%char) then spec_strip_indices true path'
           else String c (spec_strip_indices false path')
  end.

Definition spec_normalize_path (path : string) : string :=
  spec_strip_indices false path.

(** The naming reset rule as the specification words it: an override found
    under the normalized source path, else under the bare field name, is the
    new prefix as it stands; without override the new prefix is the parent
    prefix, an underscore and the field name, or the field name alone when
    there is no parent prefix. *)
Definition spec_output_prefix (explicit_mapping : option (gmap string string))
    (source_prefix output_prefix field_name : string) : string :=
  let source_path := if bool_decide (source_prefix = "") then field_name
                     else source_prefix +:+ "." +:+ field_name in
  match mapping_lookup explicit_mapping (spec_normalize_path source_path) with
  | Some override => override
  | None =>
      match mapping_lookup explicit_mapping field_name with
      | Some override => override
      | None => if bool_decide (output_prefix = "") then field_name
                else output_prefix +:+ "_" +:+ field_name
      end
  end.

(** The schema of the re-anchoring example: the root field a is a struct
    with the fields b and c. *)
Definition reanchor_structs : gmap string (list Field) :=
  <["outer" := [("a", "inner", None)] ]>
    (<["inner" := [("b", "int", None); ("c", "int", None)] ]> ∅).

Definition reanchor_mapping : option (gmap string string) :=
  Some (<["a.b" := "renamed"]> ∅).

(** Arrays of the struct pt, of one dimension in row and of two in grid,
    with an override for the field x of their elements. *)
Definition cell_structs : gmap string (list Field) :=
  <["grid" := [("cell", "pt", Some [2; 2])] ]>
    (<["row" := [("cell", "pt", Some [2])] ]>
       (<["pt" := [("x", "int", None)] ]> ∅)).

Definition cell_mapping : option (gmap string string) :=
  Some (<["cell.x" := "gx"]> ∅).

(** The same schema and override as files. *)
Definition cell_header : string :=
  "typedef struct { int x; } pt; typedef struct { pt cell[2]; } row; typedef struct { pt cell[2][2]; } grid;".

Definition cell_object : C_deStructor :=
  new cell_header cell_header "" "grid" "grid" (Some ("cell.x: gx" +:+ nl)) "".

(** The flattening with its leaves in sight: [flatten_struct_fields] where
    every name comes with the source path of the leaf it names (for an
    element of an array leaf, the path of the field with the index between
    brackets). *)
Section leaves.

Context (structs : gmap string (list Field)).
Context (explicit_mapping : option (gmap string string)).

Definition leaves_of_field
    (recur : string → string → string → result (list (string * string)))
    (source_prefix output_prefix : string) (fld : Field)
  : result (list (string * string)) :=
  let '(field_name, field_type, array_dims) := fld in
  let full_source_path := full_source_path source_prefix field_name in
  let new_output_prefix :=
    new_output_prefix explicit_mapping source_prefix output_prefix field_name in
  if bool_decide (is_Some (structs !! field_type)) then
    match array_dims with
    | None => recur field_type full_source_path new_output_prefix
    | Some dims =>
        for_extend (λ idx,
          recur field_type (full_source_path +:+ "[" +:+ idx +:+ "]")
                (new_output_prefix +:+ "_" +:+ idx)) (index_suffixes dims)
    end
  else
    match array_dims with
    | None | Some [] => Ok [(full_source_path, new_output_prefix)]
    | Some dims =>
        Ok ((λ idx, (full_source_path +:+ "[" +:+ idx +:+ "]",
                     new_output_prefix +:+ "_" +:+ idx)) <$> index_suffixes dims)
    end.

Fixpoint flatten_leaves (fuel : nat)
    (struct_name source_prefix output_prefix : string)
  : result (list (string * string)) :=
  match fuel with
  | O => Raise RecursionError
  | S fuel' =>
      match structs !! struct_name with
      | None => Ok []
      | Some fields =>
          for_extend (leaves_of_field (flatten_leaves fuel') source_prefix output_prefix)
            fields
      end
  end.

End leaves.

(** Two schemas in which a name beside an array leaf has the form of one of
    its indexed names: an array named like the first element of v, and a
    scalar named like an element that v does not have. *)
Definition clash_structs : gmap string (list Field) :=
  <["s" := [("v", "int", Some [3]); ("v_0", "int", Some [2])] ]>
    (<["t" := [("v", "int", Some [2]); ("v_7", "int", None)] ]> ∅).

(** The end of an indexed name: an underscore, digits, the end. *)
Definition index_tail : regex := seqs [chr "_"; Grp "2" (plus true d); Eos].

(** [s] is a text of one line. *)
Definition no_newline (s : string) : bool :=
  string_forall (λ c, negb (bool_decide (c = newline))) s.

(** The values that [generate_field_map] gathers under [base]: those paired
    with the names whose base it is, in order. *)
Fixpoint grouped (base : string) (names values : list string) : list string :=
  match names, values with
  | name :: names', v :: values' =>
      (if bool_decide (indexed_base name = Some base) then [v] else [])
      ++ grouped base names' values'
  | _, _ => []
  end.

Definition box_header : string := "typedef struct { int v[3]; } box;".
Definition box_statement : string := "box b[1] = {{ {1,2,3} }};".

(** The object of the example: the view schema is the full schema, there is
    no mapping table. *)
Definition box_object : C_deStructor :=
  new box_header box_header box_statement "box" "box" None "".

(** An object after the three loading steps of [run]. *)
Definition loaded (self : C_deStructor) : C_deStructor :=
  match self ← load_full_structs self; load_view_structs self with
  | Ok self => load_mapping self
  | Raise _ => self
  end.

Definition box_names : list string := ["v_0"; "v_1"; "v_2"].
Definition box_values : list string := ["1"; "2"; "3"].
Definition box_view : vtree :=
  VDict [("v", VDict [("array", VInt 3); ("fields", VStr "int")])].

(** Two structs with an array field between two scalars. *)
Definition point_structs : gmap string (list Field) :=
  <["s" := [("x", "int", None); ("v", "int", Some [3]); ("y", "int", None)] ]>
    (<["t" := [("x", "int", None); ("g", "int", Some [2; 2]); ("y", "int", None)] ]> ∅).

(** ** Definitions for the further properties *)

(** The name of a field. *)
Definition field_name_of (fld : Field) : string := fld.1.1.

(** The view of a field: its name with the leaf of its type. *)
Definition leaf_of (fld : Field) : string * vtree := (fld.1.1, VStr fld.1.2).

(** The view node of an array of [size] leaves. *)
Definition leaf_array (size : Z) (leaf_type : string) : vtree :=
  VDict [("array", VInt size); ("fields", VStr leaf_type)].

(** The view of a field of a primitive type: a leaf, or for an array field
    the array node of its first dimension (1 when there is none). *)
Definition view_of (fld : Field) : string * vtree :=
  (fld.1.1,
   match fld.2 with
   | None => VStr fld.1.2
   | Some dims => leaf_array (match dims with n :: _ => n | [] => 1 end) fld.1.2
   end).

(** The body of the loop of [build_view_tree] over the fields of a struct;
    [recur] is the recursive call. *)
Definition view_field_step (view_defs : gmap string (list Field))
    (recur : string → result vtree)
    (acc : result (list (string * vtree))) (fld : Field)
  : result (list (string * vtree)) :=
  tree ← acc;
  let '(field_name, field_type, array_dims) := fld in
  subtree ← (if bool_decide (is_Some (view_defs !! field_type))
             then recur field_type
             else Ok (VStr field_type));
  match array_dims with
  | Some dims =>
      let size := match dims with n :: _ => n | [] => 1 end in
      Ok (dict_set field_name
            (VDict [("array", VInt size); ("fields", subtree)]) tree)
  | None => Ok (dict_set field_name subtree tree)
  end.

(** The object with another [specifier]. *)
Definition set_specifier (v : string) (self : C_deStructor) :=
  {| header_file := header_file self; view_file := view_file self;
     init_text := init_text self; target_struct := target_struct self;
     target_view := target_view self; mapping_file := mapping_file self;
     specifier := v; structs := structs self; view_defs := view_defs self;
     view_tree := view_tree self; explicit_mapping := explicit_mapping self;
     flat_fields := flat_fields self; postfix := postfix self;
     prefix := prefix self; var_nameSrc := var_nameSrc self;
     array_size := array_size self; init_block := init_block self |}.

(** The brackets of a declaration: none for a single structure, empty ones,
    or the size between brackets. *)
Definition brackets (array_size : option string) : string :=
  match array_size with
  | None => ""
  | Some size => if bool_decide (size = "[]") then "[]" else "[" +:+ size +:+ "]"
  end.

(** The two inner loops of [generate_nested_initializer] as functions of
    their own: one element of an array field, and one field of a dict. *)
Definition render_element (field_map : gmap string fval)
    (sub_items : list (string * vtree)) (elem_key : string) : result fval :=
  match field_map !! elem_key with
  | Some v => Ok v
  | None =>
      match dict_get "fields" sub_items with
      | Some v => generate_nested_initializer v field_map elem_key
      | None => Raise KeyError
      end
  end.

Definition render_part (field_map : gmap string fval) (prefix : string)
    (item : string * vtree) : result fval :=
  let full_key := full_key prefix item.1 in
  let plain : result fval :=
    match field_map !! full_key with
    | Some v => Ok v
    | None => generate_nested_initializer item.2 field_map full_key
    end in
  match item.2 with
  | VDict sub_items =>
      if dict_has "array" sub_items && dict_has "fields" sub_items then
        match dict_get "array" sub_items with
        | Some (VInt size) =>
            elems ← for_each (λ i, render_element field_map sub_items
                                     (full_key +:+ "_" +:+ fmt i)) (range size);
            braced elems
        | _ => Raise TypeError
        end
      else plain
  | _ => plain
  end.

(** The tokens of the bracketed sizes of a field, one group per text. *)
Definition dim_tokens (texts : list string) : list Token :=
  texts ≫= λ text, [MkToken "LBRACKET" "["; MkToken "NUMBER" text; MkToken "RBRACKET" "]"].

(** The tokens of one typedef: the statements of the body, each followed by
    its semicolon, between the opening words and the closing name. *)
Definition typedef_tokens (struct_name : string) (statements : list (list Token))
  : list Token :=
  [MkToken "ID" "typedef"; MkToken "ID" "struct"; MkToken "LBRACE" "{"]
  ++ (statements ≫= λ statement, statement ++ [MkToken "SEMICOLON" ";"])
  ++ [MkToken "RBRACE" "}"; MkToken "ID" struct_name; MkToken "SEMICOLON" ";"].

(** The texts of the scalar tokens among [toks]. *)
Definition scalar_texts (toks : list Token) : list string :=
  value <$> filter (λ t, is_scalar_token t = true) toks.

(** A field statement as the loop over the body takes it: it has a token,
    none of them a semicolon, it does not start with a closing brace, and
    [parse_field] makes [fld] of it. *)
Definition statement_of (statement : list Token) (fld : Field) : Prop :=
  statement ≠ [] ∧ (∀ t, t ∈ statement → type t ≠ "SEMICOLON")
  ∧ at_type "RBRACE" statement = false ∧ parse_field statement = Ok fld.

(** The tokens of a header: its typedefs, one after the other. *)
Definition header_tokens (typedefs : list (string * list (list Token))) : list Token :=
  typedefs ≫= λ td, typedef_tokens td.1 td.2.

(** A typedef with the struct it defines: the same name, and the fields of
    its statements. *)
Definition typedef_of (td : string * list (list Token)) (parsed : string * list Field)
  : Prop :=
  td.1 = parsed.1 ∧ Forall2 statement_of td.2 parsed.2.

(** [extract_init_declarations_from_text] of [mass_process.py]: the tuples
    (spec, var_name, array_size, init_block) of all declarations of
    [target_struct] in [init_text].  Its pattern is the one of
    [extract_declaration_info]. *)
Definition extract_init_declarations_from_text (init_text target_struct : string)
  : list (string * string * option string * string) :=
  (λ m,
     let var_name := default "" (group m "var") in
     let size := group m "size" in
     let array_size :=
       match group m "3" with
       | Some (String _ _) =>
           if bool_decide (size = Some "") then Some "[]" else size
       | _ => None
       end in
     let init_block := default "" (group m "init") in
     let spec := strip (default "" (group m "spec")) in
     (spec, var_name, array_size, init_block))
  <$> finditer (declaration_re target_struct) init_text.

(** The product of the sizes [range] gives to the dimensions. *)
Definition index_count (dims : list Z) : nat :=
  foldr (λ n acc, (Z.to_nat n * acc)%nat) 1%nat dims.

(** ** Examples for the further properties *)

(** A struct of two scalars, as a registry and as a header text. *)
Definition pair_fields : list Field := [("a", "int", None); ("b", "float", None)].
Definition pair_structs : gmap string (list Field) := {["pair" := pair_fields]}.
Definition pair_header : string := "typedef struct { int a; float b; } pair;".
(** The view file of [pair]: one field per line, as [parse_view_structs]
    reads them. *)
Definition pair_view : string :=
  "typedef struct {" +:+ nl +:+ "int a;" +:+ nl +:+ "float b;" +:+ nl +:+ "} pair;".
Definition pair_object : C_deStructor :=
  new pair_header pair_view "" "pair" "pair" None "".

(** A struct with a field of its own type. *)
Definition node_fields : list Field := [("v", "int", None); ("next", "node", None)].
Definition node_structs : gmap string (list Field) := {["node" := node_fields]}.

(** The statements of the body of [pair], as tokens. *)
Definition pair_statements : list (list Token) :=
  [[MkToken "ID" "int"; MkToken "ID" "a"]; [MkToken "ID" "float"; MkToken "ID" "b"]].

(** A view struct with a scalar and an array field. *)
Definition row_structs : gmap string (list Field) :=
  {["row" := [("n", "int", None); ("v", "float", Some [3])]]}.

(** A struct with one array field of three dimensions. *)
Definition grid_structs : gmap string (list Field) :=
  {["grid" := [("g", "int", Some [2; 3; 4])]]}.

(** An object that holds a declaration of two [pair]s. *)
Definition pair_declared : C_deStructor :=
  extract_declaration_info
    (new pair_header pair_view "static pair p[2] = {{1, 2}, {3, 4}};" "pair" "pair" None "").

(** A line of two points: an array of structs inside a struct. *)
Definition line_structs : gmap string (list Field) :=
  <["line" := [("p", "pt", Some [2])] ]>
    (<["seg" := [("p", "pt", None)] ]>
       {["pt" := [("x", "int", None); ("y", "int", None)]]}).

(** * Properties *)

(** ** Leaves of the view tree *)

(** C8: rendering a view leaf returns the value the field map stores under
    the accumulated prefix when the prefix is a key of the map, and the
    literal 0 otherwise; it never raises. *)
Theorem C8_leaf_lookup_or_zero (leaf_type : string) (field_map : gmap string fval)
    (prefix : string) :
  generate_nested_initializer (VStr leaf_type) field_map prefix =
    match field_map !! prefix with
    | Some stored => Ok stored
    | None => Ok (FStr "0")
    end.
Proof. simpl. by destruct (field_map !! prefix). Qed.

(** ** The mapping table does not change the shape of the flattening *)

Section shape.

Context (structs : gmap string (list Field)).

Lemma for_extend_length {A : Type} (f g : A → result (list string)) (items : list A) :
  (∀ x, length <$> f x = length <$> g x) →
  length <$> for_extend f items = length <$> for_extend g items.
Proof.
  intros Hfg. induction items as [|x xs IH]; [done|].
  simpl. specialize (Hfg x).
  destruct (f x) as [r1|e1], (g x) as [r2|e2]; simplify_eq/=; try done.
  destruct (for_extend f xs) as [rs1|], (for_extend g xs) as [rs2|];
    simplify_eq/=; try done.
  f_equal. rewrite !length_app. congruence.
Qed.

Lemma flatten_field_length em1 em2 recur1 recur2 sp op1 op2 fld :
  (∀ name sp' o1 o2, length <$> recur1 name sp' o1 = length <$> recur2 name sp' o2) →
  length <$> flatten_field structs em1 recur1 sp op1 fld =
  length <$> flatten_field structs em2 recur2 sp op2 fld.
Proof.
  intros Hrec. destruct fld as [[field_name field_type] array_dims].
  unfold flatten_field. case_bool_decide.
  - destruct array_dims as [dims|]; [|apply Hrec].
    apply for_extend_length. intros idx. apply Hrec.
  - destruct array_dims as [[|n dims]|]; simpl; try done.
    by rewrite !length_fmap.
Qed.

Lemma flatten_length em1 em2 fuel struct_name sp op1 op2 :
  length <$> flatten_struct_fields structs em1 fuel struct_name sp op1 =
  length <$> flatten_struct_fields structs em2 fuel struct_name sp op2.
Proof.
  revert struct_name sp op1 op2.
  induction fuel as [|fuel IH]; intros struct_name sp op1 op2; [done|].
  simpl. destruct (structs !! struct_name) as [fields|]; [|done].
  apply for_extend_length. intros fld. apply flatten_field_length.
  intros. apply IH.
Qed.

End shape.

Section leaf_order.

Context (structs : gmap string (list Field)).

Lemma for_extend_proj {A B C D : Type} (k : B → D) (k' : C → D)
    (f : A → result (list B)) (g : A → result (list C)) (items : list A) :
  (∀ x, (λ l : list B, k <$> l) <$> f x = (λ l : list C, k' <$> l) <$> g x) →
  (λ l : list B, k <$> l) <$> for_extend f items
  = (λ l : list C, k' <$> l) <$> for_extend g items.
Proof.
  intros Hfg. induction items as [|x xs IH]; [done|].
  simpl. specialize (Hfg x).
  destruct (f x) as [r1|e1], (g x) as [r2|e2]; simplify_eq/=; try done.
  destruct (for_extend f xs) as [rs1|], (for_extend g xs) as [rs2|];
    simplify_eq/=; try done.
  f_equal. rewrite !fmap_app. congruence.
Qed.

(** The names of [flatten_leaves] are the names the code returns. *)
Lemma flatten_leaves_names em fuel :
  ∀ struct_name sp op,
    (λ leaves : list (string * string), leaves.*2)
      <$> flatten_leaves structs em fuel struct_name sp op
    = (λ names : list string, id <$> names)
      <$> flatten_struct_fields structs em fuel struct_name sp op.
Proof.
  induction fuel as [|fuel IH]; intros struct_name sp op; [done|].
  simpl. destruct (structs !! struct_name) as [fields|]; [|done].
  apply (for_extend_proj snd id). intros [[field_name field_type] array_dims].
  unfold leaves_of_field, flatten_field. case_bool_decide.
  - destruct array_dims as [dims|]; [|apply IH].
    apply (for_extend_proj snd id). intros idx. apply IH.
  - destruct array_dims as [[|n dims]|]; simpl; try done.
    f_equal. rewrite <-!list_fmap_compose. by apply list_fmap_ext.
Qed.

(** The leaves of [flatten_leaves], in their order, do not depend on the
    mapping table or on the output prefix. *)
Lemma flatten_leaves_sources em1 em2 fuel :
  ∀ struct_name sp op1 op2,
    (λ leaves : list (string * string), leaves.*1)
      <$> flatten_leaves structs em1 fuel struct_name sp op1
    = (λ leaves : list (string * string), leaves.*1)
      <$> flatten_leaves structs em2 fuel struct_name sp op2.
Proof.
  induction fuel as [|fuel IH]; intros struct_name sp op1 op2; [done|].
  simpl. destruct (structs !! struct_name) as [fields|]; [|done].
  apply (for_extend_proj fst fst). intros [[field_name field_type] array_dims].
  unfold leaves_of_field. case_bool_decide.
  - destruct array_dims as [dims|]; [|apply IH].
    apply (for_extend_proj fst fst). intros idx. apply IH.
  - destruct array_dims as [[|n dims]|]; simpl; try done.
    f_equal. rewrite <-!list_fmap_compose. by apply list_fmap_ext.
Qed.

End leaf_order.

Lemma result_fmap_id {A : Type} (r : result (list A)) :
  (λ l : list A, id <$> l) <$> r = r.
Proof. destruct r as [l|e]; [|done]. simpl. by rewrite list_fmap_id. Qed.

(** C10: for every schema registry, struct name and prefixes, and any two
    mapping tables (none included), [flatten_struct_fields] names the same
    leaves in the same order: under either table its names are, position by
    position, the names of one list of leaves (their source paths), which is
    the same for both tables.  So the two lists have the same length, or the
    calls raise the same way, and the count check of [check_structure_type]
    does not depend on the mapping table. *)
Theorem C10_mapping_keeps_leaf_count
    (registry : gmap string (list Field)) (em1 em2 : option (gmap string string))
    (fuel : nat) (struct_name source_prefix output_prefix : string)
    (self : C_deStructor) (m1 m2 : gmap string string) (flat_values : list string) :
  ((λ leaves : list (string * string), leaves.*2)
     <$> flatten_leaves registry em1 fuel struct_name source_prefix output_prefix
   = flatten_struct_fields registry em1 fuel struct_name source_prefix output_prefix)
  ∧ ((λ leaves : list (string * string), leaves.*2)
       <$> flatten_leaves registry em2 fuel struct_name source_prefix output_prefix
     = flatten_struct_fields registry em2 fuel struct_name source_prefix output_prefix)
  ∧ ((λ leaves : list (string * string), leaves.*1)
       <$> flatten_leaves registry em1 fuel struct_name source_prefix output_prefix
     = (λ leaves : list (string * string), leaves.*1)
       <$> flatten_leaves registry em2 fuel struct_name source_prefix output_prefix)
  ∧ length <$> flatten_struct_fields registry em1 fuel struct_name source_prefix output_prefix =
    length <$> flatten_struct_fields registry em2 fuel struct_name source_prefix output_prefix
  ∧ check_structure_type (set_explicit_mapping m1 self) flat_values =
    check_structure_type (set_explicit_mapping m2 self) flat_values.
Proof.
  split; [by rewrite flatten_leaves_names, result_fmap_id|].
  split; [by rewrite flatten_leaves_names, result_fmap_id|].
  split; [apply flatten_leaves_sources|].
  split; [apply flatten_length|].
  unfold check_structure_type. generalize recursion_limit. intros limit.
  cbn [set_explicit_mapping structs explicit_mapping target_struct].
  pose proof (flatten_length (structs self) (Some m1) (Some m2) limit
                (target_struct self) "" "" "") as H.
  destruct (flatten_struct_fields _ (Some m1) _ _ _ _),
           (flatten_struct_fields _ (Some m2) _ _ _ _); simplify_eq/=; try done.
  by rewrite H.
Qed.

(** ** Facts about strings *)

Lemma app_cons c (s t : string) : String c s +:+ t = String c (s +:+ t).
Proof. done. Qed.

Lemma app_empty_l (s : string) : "" +:+ s = s.
Proof. done. Qed.

Lemma app_empty_r (s : string) : s +:+ "" = s.
Proof. induction s as [|c s IH]; [done|]. by rewrite app_cons, IH. Qed.

Lemma app_assoc_s (s t u : string) : (s +:+ t) +:+ u = s +:+ t +:+ u.
Proof. induction s as [|c s IH]; [done|]. by rewrite !app_cons, IH. Qed.

Lemma app_length_s (s t : string) :
  String.length (s +:+ t) = (String.length s + String.length t)%nat.
Proof. induction s as [|c s IH]; [done|]. rewrite app_cons. simpl. by rewrite IH. Qed.

(** ** Decimal indices *)

Lemma pretty_N_char_digit x : is_digit (pretty_N_char x) = true.
Proof. unfold pretty_N_char. by repeat case_match. Qed.

Lemma pretty_N_go_digits x s :
  s ≠ "" → string_forall is_digit s = true →
  pretty_N_go x s ≠ "" ∧ string_forall is_digit (pretty_N_go x s) = true.
Proof.
  revert s. induction (N.lt_wf_0 x) as [x _ IH]; intros s Hne Hs.
  destruct (decide (x = 0)%N) as [->|Hx]; [by rewrite pretty_N_go_0|].
  rewrite pretty_N_go_step by lia.
  apply IH; [apply N.div_lt; lia|done|].
  simpl. by rewrite pretty_N_char_digit.
Qed.

Lemma fmt_digits (i : nat) : fmt i ≠ "" ∧ string_forall is_digit (fmt i) = true.
Proof.
  unfold fmt, pretty, pretty_nat, pretty, pretty_N.
  case_decide; [done|].
  rewrite pretty_N_go_step by lia.
  apply pretty_N_go_digits; [done|].
  simpl. by rewrite pretty_N_char_digit.
Qed.

Lemma fmt_head (i : nat) : ∃ c s, fmt i = String c s ∧ is_digit c = true.
Proof.
  destruct (fmt_digits i) as [Hne Hd].
  destruct (fmt i) as [|c s]; [done|].
  exists c, s. split; [done|]. simpl in Hd. by apply andb_true_iff in Hd as [? _].
Qed.

Lemma lstrip_underscore_fmt (i : nat) (s : string) :
  lstrip_underscore ("_" +:+ fmt i +:+ s) = fmt i +:+ s.
Proof.
  destruct (fmt_head i) as (c & t & -> & Hc).
  unfold lstrip_underscore. simpl.
  unfold char_is. case_bool_decide as Heq; [|done].
  subst c. done.
Qed.

(** ** Flattening: naming and order *)

Lemma for_extend_app {A B : Type} (f : A → result (list B)) (l1 l2 : list A)
    (r1 r2 : list B) :
  for_extend f l1 = Ok r1 → for_extend f l2 = Ok r2 →
  for_extend f (l1 ++ l2) = Ok (r1 ++ r2).
Proof.
  revert r1. induction l1 as [|x xs IH]; intros r1 H1 H2.
  - by simplify_eq/=.
  - simpl in *. destruct (f x) as [r|]; [|done]. simpl in *.
    destruct (for_extend f xs) as [rs|]; [|done]. simplify_eq/=.
    rewrite (IH rs eq_refl H2). simpl. by rewrite app_assoc.
Qed.

Lemma mapping_has_lookup em key :
  mapping_has em key = bool_decide (is_Some (mapping_lookup em key)).
Proof.
  destruct em as [m|]; simpl.
  - case_bool_decide as Hm; simpl; [|done].
    subst m. by rewrite lookup_empty.
  - done.
Qed.

Lemma mapping_get_lookup em key v :
  mapping_lookup em key = Some v → mapping_get em key = v.
Proof. destruct em as [m|]; simpl; [|done]. by intros ->. Qed.

(** Where the normalization of the code gives the path without its indices,
    the new output prefix of the code is the one of the naming reset rule. *)
Lemma new_output_prefix_spec em source_prefix output_prefix field_name :
  normalize_path (full_source_path source_prefix field_name)
    = spec_normalize_path (full_source_path source_prefix field_name) →
  new_output_prefix em source_prefix output_prefix field_name =
  spec_output_prefix em source_prefix output_prefix field_name.
Proof.
  intros Hnorm. unfold new_output_prefix, current_output, spec_output_prefix.
  fold (full_source_path source_prefix field_name). rewrite <-Hnorm.
  rewrite !mapping_has_lookup.
  set (norm := normalize_path _).
  destruct (mapping_lookup em norm) as [v|] eqn:Hn.
  - rewrite bool_decide_eq_true_2 by eauto. simpl. by apply mapping_get_lookup.
  - rewrite (bool_decide_eq_false_2 (is_Some None)) by (by intros []). simpl.
    destruct (mapping_lookup em field_name) as [v|] eqn:Hf.
    + rewrite bool_decide_eq_true_2 by eauto. by apply mapping_get_lookup.
    + rewrite bool_decide_eq_false_2 by (by intros []). done.
Qed.

(** C5: the example of the naming reset rule holds: with the mapping of a.b
    to renamed the flattened names are renamed and a_c.  Under an array of
    structs of one dimension the rule holds as well: the index is taken out
    of the source path, and the override of cell.x names every element.
    The header and the mapping file of the example load to this schema and
    table.  Under an array of structs of two dimensions it fails: the code writes
    the index of an element as two numbers joined by an underscore, its
    normalization takes out bracketed digits only, so the source path keeps
    the index, the override of cell.x is not found, and the names keep the
    parent prefix where the rule gives the override. *)
Theorem C5_multi_index_path_misses_override :
  flatten_struct_fields reanchor_structs reanchor_mapping recursion_limit "outer" "" ""
    = Ok ["renamed"; "a_c"]
  ∧ structs (loaded cell_object) = cell_structs
  ∧ Some (explicit_mapping (loaded cell_object)) = cell_mapping
  ∧ flatten_struct_fields cell_structs cell_mapping recursion_limit "row" "" ""
    = Ok ["gx"; "gx"]
  ∧ flatten_struct_fields cell_structs cell_mapping recursion_limit "grid" "" ""
    = Ok ["cell_0_0_x"; "cell_0_1_x"; "cell_1_0_x"; "cell_1_1_x"]
  ∧ normalize_path "cell[0].x" = "cell.x"
  ∧ normalize_path "cell[0_0].x" = "cell[0_0].x"
  ∧ spec_normalize_path "cell[0_0].x" = "cell.x"
  ∧ new_output_prefix cell_mapping "cell[0_0]" "cell_0_0" "x" = "cell_0_0_x"
  ∧ spec_output_prefix cell_mapping "cell[0_0]" "cell_0_0" "x" = "gx".
Proof. repeat split; vm_compute; reflexivity. Qed.

Lemma new_output_prefix_root em field_name :
  mapping_has em (normalize_path field_name) = false →
  mapping_has em field_name = false →
  new_output_prefix em "" "" field_name = field_name.
Proof.
  intros Hn Hf. unfold new_output_prefix, current_output, full_source_path.
  simpl. by rewrite Hn, Hf.
Qed.

Lemma fmap_list_bind {A B C : Type} (f : B → C) (g : A → list B) (l : list A) :
  f <$> (l ≫= g) = l ≫= (λ x, f <$> g x).
Proof. induction l as [|x l IH]; [done|]. rewrite !bind_cons, fmap_app. by f_equal. Qed.

Lemma length_bind_const {A B : Type} (g : A → list B) (l : list A) (k : nat) :
  (∀ x, length (g x) = k) → length (l ≫= g) = (length l * k)%nat.
Proof.
  intros Hg. induction l as [|x l IH]; [done|].
  rewrite bind_cons, length_app, Hg, IH. simpl. lia.
Qed.

Lemma gen_indices_2d (n m : nat) :
  gen_indices [Z.of_nat n; Z.of_nat m] "" =
  i ← seq 0 n; j ← seq 0 m; [fmt i +:+ "_" +:+ fmt j].
Proof.
  simpl. unfold range. rewrite !Nat2Z.id.
  apply list_bind_ext; [|done]. intros i.
  apply list_bind_ext; [|done]. intros j.
  by rewrite app_empty_l, app_assoc_s, lstrip_underscore_fmt.
Qed.

(** C6: a primitive root-level field [name] with dims [n] and no mapping
    override flattens to the n paths name_0 .. name_(n-1), consecutive and
    in that order; with dims [n, m] it flattens to the n*m paths name_i_j in
    row-major order, the outer index varying slowest.  [r1] and [r2] are the
    paths of the fields declared before and after it. *)
Theorem C6_array_paths_row_major
    (registry : gmap string (list Field)) (em : option (gmap string string))
    (fuel : nat) (struct_name name ty : string) (before_it after_it : list Field)
    (r1 r2 : list string) :
  registry !! ty = None →
  mapping_has em (normalize_path name) = false →
  mapping_has em name = false →
  for_extend (flatten_field registry em (flatten_struct_fields registry em fuel) "" "")
    before_it = Ok r1 →
  for_extend (flatten_field registry em (flatten_struct_fields registry em fuel) "" "")
    after_it = Ok r2 →
  (∀ n : nat,
     registry !! struct_name = Some (before_it ++ (name, ty, Some [Z.of_nat n]) :: after_it) →
     let paths := (λ i, name +:+ "_" +:+ fmt i) <$> seq 0 n in
     flatten_struct_fields registry em (S fuel) struct_name "" "" = Ok (r1 ++ paths ++ r2)
     ∧ length paths = n)
  ∧ (∀ n m : nat,
     registry !! struct_name =
       Some (before_it ++ (name, ty, Some [Z.of_nat n; Z.of_nat m]) :: after_it) →
     let paths := i ← seq 0 n; j ← seq 0 m; [name +:+ "_" +:+ fmt i +:+ "_" +:+ fmt j] in
     flatten_struct_fields registry em (S fuel) struct_name "" "" = Ok (r1 ++ paths ++ r2)
     ∧ length paths = (n * m)%nat).
Proof.
  intros Hty Hn Hf H1 H2.
  assert (Hfield : ∀ dims suffixes, dims ≠ [] → index_suffixes dims = suffixes →
    ∀ fields, fields = before_it ++ (name, ty, Some dims) :: after_it →
    registry !! struct_name = Some fields →
    flatten_struct_fields registry em (S fuel) struct_name "" "" =
      Ok (r1 ++ ((λ idx, name +:+ "_" +:+ idx) <$> suffixes) ++ r2)).
  { intros dims suffixes Hdims Hsuf fields -> Hreg. simpl. rewrite Hreg.
    apply for_extend_app; [done|].
    simpl. rewrite Hty.
    rewrite bool_decide_eq_false_2 by (by intros []).
    rewrite (new_output_prefix_root em name Hn Hf).
    destruct dims as [|d dims]; [done|]. rewrite Hsuf. simpl.
    by rewrite H2. }
  split.
  - intros n Hreg paths. split.
    + rewrite (Hfield [Z.of_nat n] (fmt <$> seq 0 n)) with (3 := eq_refl); try done.
      * subst paths. by rewrite <-list_fmap_compose.
      * simpl. unfold range. by rewrite Nat2Z.id.
    + subst paths. by rewrite length_fmap, length_seq.
  - intros n m Hreg paths. split.
    + rewrite (Hfield [Z.of_nat n; Z.of_nat m] _ ltac:(done) (gen_indices_2d n m))
        with (1 := eq_refl); [|done].
      subst paths. do 2 f_equal. f_equal.
      rewrite fmap_list_bind. apply list_bind_ext; [|done]. intros i.
      rewrite fmap_list_bind. apply list_bind_ext; [|done]. intros j. done.
    + subst paths. rewrite (length_bind_const _ _ m), length_seq; [done|].
      intros i. rewrite (length_bind_const _ _ 1%nat), length_seq; [lia|done].
Qed.

(** ** Facts about the matcher *)

Section matcher_facts.

Lemma then_cons t1 t2 s2 l : then_ t1 ((t2, s2) :: l) = (t1 +:+ t2, s2) :: then_ t1 l.
Proof. done. Qed.

Lemma then_then t1 t2 l : then_ t1 (then_ t2 l) = then_ (t1 +:+ t2) l.
Proof.
  unfold then_. rewrite <-list_fmap_compose. apply list_fmap_ext.
  intros _ [t s] _. simpl. by rewrite app_assoc_s.
Qed.

Lemma then_empty l : then_ "" l = l.
Proof.
  unfold then_. rewrite <-(list_fmap_id l) at 2. apply list_fmap_ext.
  by intros _ [t s] _.
Qed.

(** A starred character class, one turn unfolded. *)
Lemma star_chr_stop p greedy fuel st :
  match m_rest st with String c _ => p c = false | EmptyString => True end →
  star_loop (matches (Chr p)) greedy (S fuel) st = [("", st)].
Proof.
  intros H. simpl. destruct (m_rest st) as [|c r]; [by destruct greedy|].
  rewrite H. by destruct greedy.
Qed.

Lemma star_chr_step p greedy fuel st c r :
  m_rest st = String c r → p c = true →
  star_loop (matches (Chr p)) greedy (S fuel) st =
    let more := then_ (String c "") (star_loop (matches (Chr p)) greedy fuel (advance c r st)) in
    if greedy then more ++ [("", st)] else ("", st) :: more.
Proof.
  intros Hr Hp. simpl. rewrite Hr, Hp. simpl. by rewrite app_nil_r.
Qed.

(** What a starred character class consumes is made of characters of the
    class and is a prefix of the text ahead. *)
Lemma star_chr_elem p greedy fuel st t s1 :
  (t, s1) ∈ star_loop (matches (Chr p)) greedy fuel st →
  string_forall p t = true ∧ m_rest st = t +:+ m_rest s1 ∧ m_caps s1 = m_caps st.
Proof.
  revert st t. induction fuel as [|fuel IH]; intros st t Hin.
  { simpl in Hin. apply list_elem_of_singleton in Hin. by simplify_eq. }
  destruct (m_rest st) as [|c r] eqn:Hr.
  { rewrite star_chr_stop in Hin by by rewrite Hr.
    apply list_elem_of_singleton in Hin. simplify_eq. by rewrite Hr. }
  destruct (p c) eqn:Hp.
  2:{ rewrite star_chr_stop in Hin by by rewrite Hr.
      apply list_elem_of_singleton in Hin. simplify_eq. by rewrite Hr. }
  rewrite (star_chr_step _ _ _ _ c r) in Hin by done. simpl in Hin.
  assert ((t, s1) = ("", st) ∨
          (t, s1) ∈ then_ (String c "") (star_loop (matches (Chr p)) greedy fuel (advance c r st)))
    as [Heq|Hmore].
  { destruct greedy.
    - apply elem_of_app in Hin as [?|Hin]; [by right|left].
      by apply list_elem_of_singleton in Hin.
    - apply elem_of_cons in Hin as [?|?]; [by left|by right]. }
  { simplify_eq. by rewrite Hr. }
  unfold then_ in Hmore. apply list_elem_of_fmap in Hmore as ([t2 s2] & Heq & Hin2).
  simplify_eq/=. apply IH in Hin2 as (Hd & Hrest & Hcaps). simpl in *.
  rewrite !app_cons, !app_empty_l. simpl. rewrite Hp, Hd. by subst r.
Qed.

(** A greedy starred class first takes the whole text when all of it is in
    the class. *)
Lemma star_chr_greedy_all p fuel st :
  string_forall p (m_rest st) = true → (String.length (m_rest st) < fuel)%nat →
  ∃ s1 l, star_loop (matches (Chr p)) true fuel st = (m_rest st, s1) :: l
          ∧ m_rest s1 = "" ∧ m_caps s1 = m_caps st.
Proof.
  revert st. induction fuel as [|fuel IH]; intros st Hall Hlen; [lia|].
  destruct (m_rest st) as [|c r] eqn:Hr.
  - rewrite star_chr_stop by by rewrite Hr. by exists st, [].
  - simpl in Hall. apply andb_true_iff in Hall as [Hc Hall].
    rewrite (star_chr_step _ _ _ _ c r) by done. cbv zeta.
    destruct (IH (advance c r st)) as (s1 & l & Heq & ? & ?); [done|simpl in *; lia|].
    rewrite Heq, then_cons. exists s1. eexists. split; [|done].
    simpl. by rewrite app_cons, app_empty_l.
Qed.

End matcher_facts.

(** ** The pattern of indexed names *)

Section indexed_names.

Lemma matches_seq a b st :
  matches (Seq a b) st = matches a st ≫= λ '(t1, s1), then_ t1 (matches b s1).
Proof. done. Qed.

Lemma matches_seq_grp name a b st :
  matches (Seq (Grp name a) b) st =
  matches a st ≫= λ '(t1, s1), then_ t1 (matches b (close_group name t1 s1)).
Proof.
  rewrite matches_seq. cbn [matches]. rewrite list_fmap_bind.
  apply list_bind_ext; [|done]. by intros [t s1].
Qed.

Lemma matches_star greedy a st :
  matches (Star greedy a) st =
  star_loop (matches a) greedy (S (String.length (m_rest st))) st.
Proof. done. Qed.

Lemma matches_eos_end st : m_rest st = "" → matches Eos st = [("", st)].
Proof. intros Hr. cbn [matches]. by rewrite Hr. Qed.

Lemma matches_chr_hit p st c r :
  m_rest st = String c r → p c = true →
  matches (Chr p) st = [(String c "", advance c r st)].
Proof. intros Hr Hp. cbn [matches]. by rewrite Hr, Hp. Qed.

Lemma matches_chr_elem p st t s1 :
  (t, s1) ∈ matches (Chr p) st →
  ∃ c r, m_rest st = String c r ∧ p c = true ∧ t = String c "" ∧ s1 = advance c r st.
Proof.
  cbn [matches]. destruct (m_rest st) as [|c r]; [by intros ?%elem_of_nil|].
  destruct (p c) eqn:Hp; [|by intros ?%elem_of_nil].
  intros ?%list_elem_of_singleton. simplify_eq. by exists c, r.
Qed.

Lemma then_elem t1 l t s1 :
  (t, s1) ∈ then_ t1 l → ∃ t2, t = t1 +:+ t2 ∧ (t2, s1) ∈ l.
Proof.
  unfold then_. intros ([t2 s2] & ? & ?)%list_elem_of_fmap. simplify_eq. eauto.
Qed.

Lemma indexed_re_unfold : indexed_re = Seq (Grp "1" (plus false dot)) index_tail.
Proof. done. Qed.

Lemma no_index_split (t b ds e : string) :
  string_forall is_digit t = true → e = "" ∨ e = String newline "" → ds ≠ "" →
  t +:+ e ≠ b +:+ "_" +:+ ds.
Proof.
  intros Ht He Hds. revert b. induction t as [|c t IH]; intros b Heq.
  - rewrite app_empty_l in Heq. destruct ds as [|c0 ds]; [done|].
    destruct He as [->| ->]; destruct b as [|c' [|c'' b]]; by simplify_eq/=.
  - simpl in Ht. apply andb_true_iff in Ht as [Hc Ht].
    destruct b as [|c' b].
    + rewrite app_empty_l, !app_cons in Heq. by simplify_eq.
    + rewrite !app_cons in Heq. simplify_eq. by eapply IH.
Qed.

Lemma index_tail_fail st b ds :
  m_rest st = b +:+ "_" +:+ ds → b ≠ "" → ds ≠ "" →
  matches index_tail st = [].
Proof.
  intros Hr Hb Hds.
  destruct (matches index_tail st) as [|[t s1] l] eqn:Hm; [done|exfalso].
  assert (Hin : (t, s1) ∈ matches index_tail st) by (rewrite Hm; left).
  clear Hm. unfold index_tail in Hin. cbn [seqs] in Hin.
  rewrite matches_seq in Hin.
  apply list_elem_of_bind in Hin as ([t1 s2] & Hin & Hchr).
  apply matches_chr_elem in Hchr as (c & r & Hr' & Hc & -> & ->).
  apply then_elem in Hin as (t2 & -> & Hin).
  rewrite matches_seq_grp in Hin.
  apply list_elem_of_bind in Hin as ([t3 s3] & Hin & Hplus).
  apply then_elem in Hin as (t4 & -> & Hin).
  unfold plus in Hplus. rewrite matches_seq in Hplus.
  apply list_elem_of_bind in Hplus as ([t5 s5] & Hplus & Hd).
  apply matches_chr_elem in Hd as (c5 & r5 & Hr5 & Hc5 & -> & ->).
  apply then_elem in Hplus as (t6 & -> & Hplus).
  cbn [matches] in Hplus. apply star_chr_elem in Hplus as (Ht6 & Hrest & _).
  cbn [matches close_group m_rest] in Hin.
  destruct b as [|cb b]; [done|].
  rewrite Hr, app_cons in Hr'. simplify_eq. simpl in Hr5, Hrest.
  apply (no_index_split (String c5 t6) b ds (m_rest s3)).
  - simpl. by rewrite Hc5, Ht6.
  - repeat case_bool_decide; simpl in Hin; try by apply elem_of_nil in Hin.
    all: eauto.
  - done.
  - rewrite app_cons, <-Hrest. done.
Qed.

Lemma index_tail_ok st ds :
  m_rest st = "_" +:+ ds → ds ≠ "" → string_forall is_digit ds = true →
  ∃ s1 l, matches index_tail st = ("_" +:+ ds, s1) :: l
          ∧ m_caps s1 = <["2" := ds]> (m_caps st).
Proof.
  intros Hr Hds Hd. unfold index_tail, chr, d. cbn [seqs].
  rewrite matches_seq, (matches_chr_hit _ _ "_" ds Hr) by done.
  rewrite bind_singleton, matches_seq_grp.
  destruct ds as [|c ds]; [done|]. simpl in Hd. apply andb_true_iff in Hd as [Hc Hd].
  unfold plus. rewrite matches_seq, (matches_chr_hit _ (advance _ _ _) c ds) by done.
  rewrite bind_singleton, matches_star.
  destruct (star_chr_greedy_all is_digit (S (String.length ds)) (advance c ds (advance "_" (String c ds) st)))
    as (s1 & l & Heq & Hrest & Hcaps); [done|simpl; lia|].
  cbn [m_rest advance] in Heq |- *. rewrite Heq, then_cons, bind_cons.
  rewrite matches_eos_end by done.
  rewrite !then_cons. eexists _, _. split.
  - simpl. rewrite !app_cons, !app_empty_l, app_empty_r. done.
  - simpl. by rewrite Hcaps.
Qed.

Lemma lazy_base_scan (b2 ds : string) :
  ds ≠ "" → string_forall is_digit ds = true →
  ∀ acc st fuel,
    m_rest st = b2 +:+ "_" +:+ ds → no_newline b2 = true →
    (String.length (m_rest st) < fuel)%nat →
    ∃ s1 l,
      then_ acc (star_loop (matches dot) false fuel st)
        ≫= (λ '(t1, s1), then_ t1 (matches index_tail (close_group "1" t1 s1)))
      = (acc +:+ b2 +:+ "_" +:+ ds, s1) :: l
      ∧ m_caps s1 !! "1" = Some (acc +:+ b2).
Proof.
  intros Hds Hd. induction b2 as [|c b2 IH]; intros acc st fuel Hr Hnl Hfuel;
    (destruct fuel as [|fuel]; [lia|]).
  - rewrite app_empty_l in Hr.
    unfold dot. rewrite (star_chr_step _ _ _ _ "_" ds) by done. cbv zeta.
    rewrite then_cons, bind_cons.
    destruct (index_tail_ok (close_group "1" (acc +:+ "") st) ds) as (s1 & l & Heq & Hcaps);
      [done..|].
    rewrite Heq, then_cons. eexists _, _. split.
    + simpl. rewrite !app_empty_r, app_empty_l. done.
    + rewrite Hcaps. simpl. rewrite lookup_insert_ne by done.
      by rewrite lookup_insert_eq, !app_empty_r.
  - rewrite app_cons in Hr. simpl in Hnl. apply andb_true_iff in Hnl as [Hc Hnl].
    unfold dot. rewrite (star_chr_step _ _ _ _ c (b2 +:+ "_" +:+ ds)) by done. cbv zeta.
    rewrite then_cons, bind_cons.
    rewrite (index_tail_fail _ (String c b2) ds) by done. simpl then_ at 1.
    rewrite app_nil_l, then_then.
    destruct (IH (acc +:+ String c "") (advance c (b2 +:+ "_" +:+ ds) st) fuel)
      as (s1 & l & Heq & Hcaps); [done|done|rewrite Hr in Hfuel; simpl in *; lia|].
    unfold dot in Heq. rewrite Heq. eexists _, _. split.
    + by rewrite !app_assoc_s, !app_cons, !app_empty_l.
    + rewrite Hcaps. by rewrite !app_assoc_s, !app_cons, !app_empty_l.
Qed.

Lemma indexed_base_index (base ds : string) :
  base ≠ "" → no_newline base = true → ds ≠ "" → string_forall is_digit ds = true →
  indexed_base (base +:+ "_" +:+ ds) = Some base.
Proof.
  intros Hb Hnl Hds Hd. destruct base as [|c base]; [done|].
  simpl in Hnl. apply andb_true_iff in Hnl as [Hc Hnl].
  unfold indexed_base, re_match, match_at. rewrite indexed_re_unfold, matches_seq_grp.
  unfold plus, dot. rewrite matches_seq.
  rewrite (matches_chr_hit _ _ c (base +:+ "_" +:+ ds)) by done.
  rewrite bind_singleton, matches_star.
  destruct (lazy_base_scan base ds Hds Hd (String c "")
              (advance c (base +:+ "_" +:+ ds) (MState None (String c base +:+ "_" +:+ ds) ∅ None))
              (S (String.length (base +:+ "_" +:+ ds))))
    as (s1 & l & Heq & Hcaps); [done|done|simpl; lia|].
  cbn [m_rest advance] in Heq |- *. unfold dot in Heq |- *. rewrite Heq. simpl.
  unfold group. simpl. rewrite Hcaps. by rewrite app_cons, app_empty_l.
Qed.

End indexed_names.

(** ** The field map *)

Lemma field_map_loop_temp names values result temp base :
  (field_map_loop names values result temp).2 !! base =
  match grouped base names values with
  | [] => temp !! base
  | vs => Some (default [] (temp !! base) ++ vs)
  end.
Proof.
  revert values result temp.
  induction names as [|name names IH]; intros [|v values] result temp; try done.
  simpl. destruct (indexed_base name) as [b|] eqn:Hb.
  - rewrite IH. case_bool_decide as Heq.
    + simplify_eq. rewrite lookup_insert_eq. simpl.
      destruct (grouped base names values); simpl; [done|].
      by rewrite <-app_assoc.
    + rewrite lookup_insert_ne by congruence. done.
  - rewrite IH. by rewrite bool_decide_eq_false_2.
Qed.

Lemma field_map_loop_result names values result temp key :
  is_Some (indexed_base key) →
  (field_map_loop names values result temp).1 !! key = result !! key.
Proof.
  intros Hkey. revert values result temp.
  induction names as [|name names IH]; intros [|v values] result temp; try done.
  simpl. destruct (indexed_base name) as [b|] eqn:Hb; rewrite IH; [done|].
  apply lookup_insert_ne. intros ->. rewrite Hb in Hkey. by destruct Hkey.
Qed.

Lemma generate_field_map_lookup names values key :
  generate_field_map names values !! key =
  match (field_map_loop names values ∅ ∅).2 !! key with
  | Some vs => Some (FList vs)
  | None => (field_map_loop names values ∅ ∅).1 !! key
  end.
Proof.
  unfold generate_field_map.
  destruct (field_map_loop names values ∅ ∅) as [result temp]. simpl.
  destruct (temp !! key) as [vs|] eqn:Ht.
  - apply lookup_union_Some_l. by rewrite lookup_fmap, Ht.
  - rewrite lookup_union_r; [done|]. by rewrite lookup_fmap, Ht.
Qed.

Lemma grouped_app base n1 n2 v1 v2 :
  length v1 = length n1 →
  grouped base (n1 ++ n2) (v1 ++ v2) = grouped base n1 v1 ++ grouped base n2 v2.
Proof.
  revert v1. induction n1 as [|x n1 IH]; intros [|v v1] Hlen; simplify_eq/=; [done|].
  rewrite IH by done. by rewrite app_assoc.
Qed.

Lemma grouped_none base names values :
  (∀ x, x ∈ names → indexed_base x ≠ Some base) → grouped base names values = [].
Proof.
  revert values. induction names as [|x names IH]; intros [|v values] Hx; try done.
  simpl. rewrite bool_decide_eq_false_2 by (apply Hx; left).
  apply IH. intros y Hy. apply Hx. by right.
Qed.

Lemma grouped_all base names values :
  length values = length names →
  (∀ x, x ∈ names → indexed_base x = Some base) → grouped base names values = values.
Proof.
  revert values. induction names as [|x names IH]; intros [|v values] Hlen Hx;
    simplify_eq/=; [done|].
  rewrite bool_decide_eq_true_2 by (apply Hx; left).
  simpl. f_equal. apply IH; [done|]. intros y Hy. apply Hx. by right.
Qed.

Lemma app_longer (s t : string) : t ≠ "" → s ≠ s +:+ t.
Proof.
  intros Ht Heq. apply (f_equal String.length) in Heq.
  rewrite app_length_s in Heq. destruct t; [done|]. simpl in Heq. lia.
Qed.

(** C9 as claimed: the names of a schema with the array leaf v may hold
    other names of the indexed form.  Beside an array named v_0 the map has
    the key v_0, and beside a scalar named v_7 the key v holds a value that
    is not of the array. *)
Lemma C9_claimed_grouping_fails :
  flatten_struct_fields clash_structs None 1 "s" "" ""
    = Ok ["v_0"; "v_1"; "v_2"; "v_0_0"; "v_0_1"]
  ∧ ¬ (∀ i, (i < 3)%nat →
         generate_field_map ["v_0"; "v_1"; "v_2"; "v_0_0"; "v_0_1"]
           ["1"; "2"; "3"; "4"; "5"] !! ("v" +:+ "_" +:+ fmt i) = None)
  ∧ flatten_struct_fields clash_structs None 1 "t" "" "" = Ok ["v_0"; "v_1"; "v_7"]
  ∧ generate_field_map ["v_0"; "v_1"; "v_7"] ["1"; "2"; "3"] !! "v"
    ≠ Some (FList ["1"; "2"]).
Proof.
  split; [vm_compute; reflexivity|]. split.
  - intros Hnone. specialize (Hnone 0%nat ltac:(lia)). vm_compute in Hnone. discriminate.
  - split; [vm_compute; reflexivity|]. vm_compute. discriminate.
Qed.

(** C9, amended: when the flattened names hold the block base_0 .. base_(n-1) of a
    one-dimensional array leaf (n at least 1, base a non-empty name on one
    line) and the values match the names, the map built by
    [generate_field_map] binds the key base to the list of the n values of
    the block, in order, and has none of base_0 .. base_(n-1) as a key.  The
    names around the block are any names that are not grouped under base or
    under one of the indexed names themselves. *)
Theorem C9_array_leaf_grouped_under_base
    (base : string) (n : nat) (names_before names_after : list string)
    (values_before block_values values_after : list string) :
  base ≠ "" → no_newline base = true → (0 < n)%nat →
  length values_before = length names_before →
  length block_values = n →
  (∀ x, x ∈ names_before ++ names_after → indexed_base x ≠ Some base) →
  (∀ x i, x ∈ names_before ++ names_after → (i < n)%nat →
          indexed_base x ≠ Some (base +:+ "_" +:+ fmt i)) →
  let block := (λ i, base +:+ "_" +:+ fmt i) <$> seq 0 n in
  let field_map :=
    generate_field_map (names_before ++ block ++ names_after)
                       (values_before ++ block_values ++ values_after) in
  field_map !! base = Some (FList block_values)
  ∧ ∀ i, (i < n)%nat → field_map !! (base +:+ "_" +:+ fmt i) = None.
Proof.
  intros Hbase Hnl Hn Hlen1 Hlen2 Hother Hother' block field_map.
  assert (Hblock : ∀ x, x ∈ block → indexed_base x = Some base).
  { intros x (i & -> & _)%list_elem_of_fmap.
    destruct (fmt_digits i). by apply indexed_base_index. }
  assert (Hlenb : length block_values = length block).
  { subst block. by rewrite length_fmap, length_seq. }
  split.
  - subst field_map. rewrite generate_field_map_lookup, field_map_loop_temp.
    rewrite grouped_app, grouped_app by done.
    rewrite (grouped_none _ names_before), (grouped_none _ names_after), grouped_all;
      [|done|done|intros; apply Hother; set_solver..].
    rewrite app_nil_r. simpl. rewrite lookup_empty. simpl.
    destruct block_values; [simpl in *; lia|done].
  - intros i Hi. subst field_map.
    rewrite generate_field_map_lookup, field_map_loop_temp.
    rewrite grouped_app, grouped_app by done.
    rewrite (grouped_none _ names_before), (grouped_none _ names_after),
      (grouped_none _ block).
    + simpl. rewrite lookup_empty. rewrite field_map_loop_result; [done|].
      destruct (fmt_digits i). rewrite indexed_base_index by done. eauto.
    + intros x Hx. rewrite (Hblock x Hx). intros [= Heq].
      by apply app_longer in Heq.
    + intros x Hx. apply Hother'; [set_solver|done].
    + intros x Hx. apply Hother'; [set_solver|done].
Qed.

(** ** The loops of the parsers end within their budget *)

Lemma take_field_tokens_length toks :
  (length (take_field_tokens toks).1 + length (take_field_tokens toks).2 = length toks)%nat.
Proof.
  induction toks as [|t toks IH]; [done|]. simpl.
  case_bool_decide; [done|].
  destruct (take_field_tokens toks) as [ft rest]. simpl in *. lia.
Qed.

Lemma take_field_tokens_semicolon t toks :
  type t ≠ "SEMICOLON" → (take_field_tokens (t :: toks)).1 ≠ [].
Proof.
  intros Ht. simpl. rewrite bool_decide_eq_false_2 by done.
  by destruct (take_field_tokens toks).
Qed.

Lemma skip_type_length ty toks : (length (skip_type ty toks) ≤ length toks)%nat.
Proof. unfold skip_type. destruct (at_type ty toks), toks; simpl; lia. Qed.

Lemma int_of_float_text_raises text e :
  int_of_float_text text = Raise e → e = OverflowError.
Proof.
  unfold int_of_float_text.
  destruct (default (text, "") (split_once "." text)) as [ip fp].
  repeat (case_match; try done); congruence.
Qed.

Lemma strip_dims_raises rev_tokens dims e :
  strip_dims rev_tokens dims = Raise e → e = OverflowError.
Proof.
  revert dims. induction rev_tokens as [rev_tokens IH] using (induction_ltof1 _ length).
  intros dims. destruct rev_tokens as [|t1 [|t2 [|t3 rest]]]; try done.
  simpl. case_match; [|done].
  destruct (int_of_float_text (value t2)) as [dim|e'] eqn:Hdim; simpl.
  - apply IH. unfold ltof. simpl. lia.
  - intros [= <-]. by eapply int_of_float_text_raises.
Qed.

Lemma parse_field_raises field_tokens e :
  parse_field field_tokens = Raise e → e = IndexError ∨ e = OverflowError.
Proof.
  unfold parse_field.
  destruct (strip_dims (reverse field_tokens) []) as [[rev_tokens dims]|e'] eqn:Hs; simpl.
  - destruct rev_tokens; [|done]. intros [= <-]. by left.
  - intros [= <-]. right. by eapply strip_dims_raises.
Qed.

Lemma parse_fields_within_budget fuel :
  ∀ toks fields, (length toks < fuel)%nat →
    match parse_fields fuel toks fields with
    | Ok (_, toks') => (length toks' ≤ length toks)%nat
    | Raise e => e = IndexError ∨ e = OverflowError
    end.
Proof.
  induction fuel as [|fuel IH]; intros toks fields Hfuel; [lia|].
  simpl. destruct (bool_decide (toks = []) || at_type "RBRACE" toks) eqn:Hend; [done|].
  apply orb_false_iff in Hend as [Hne _].
  destruct toks as [|t toks]; [done|].
  pose proof (take_field_tokens_length (t :: toks)) as Hlen.
  pose proof (take_field_tokens_semicolon t toks) as Hsemi.
  destruct (take_field_tokens (t :: toks)) as [field_tokens toks1] eqn:Htake.
  simpl in Hlen, Hsemi.
  pose proof (skip_type_length "SEMICOLON" toks1) as Hskip.
  assert (length (skip_type "SEMICOLON" toks1) < S (length toks))%nat as Hless.
  { destruct field_tokens as [|ft field_tokens]; [|simpl in Hlen; lia].
    destruct (decide (type t = "SEMICOLON")) as [Ht|Ht]; [|by destruct Hsemi].
    simpl in Htake. rewrite bool_decide_eq_true_2 in Htake by done.
    simplify_eq. unfold skip_type. simpl. rewrite bool_decide_eq_true_2 by done.
    simpl. lia. }
  destruct field_tokens as [|ft field_tokens].
  - specialize (IH (skip_type "SEMICOLON" toks1) fields ltac:(simpl in *; lia)).
    destruct (parse_fields fuel _ fields) as [[? toks']|]; [simpl in *; lia|done].
  - destruct (parse_field (ft :: field_tokens)) as [fld|e] eqn:Hfld; simpl.
    + specialize (IH (skip_type "SEMICOLON" toks1) (fields ++ [fld])
                    ltac:(simpl in *; lia)).
      destruct (parse_fields fuel _ _) as [[? toks']|]; [simpl in *; lia|done].
    + by eapply parse_field_raises.
Qed.

(** [parse_typedef_structs] raises [ValueError], [IndexError] or
    [OverflowError], or returns: the budget of its loops is never used up. *)
Lemma parse_structs_loop_within_budget fuel :
  ∀ toks structs e, (length toks < fuel)%nat →
    parse_structs_loop fuel toks structs = Raise e →
    e = ValueError ∨ e = IndexError ∨ e = OverflowError.
Proof.
  induction fuel as [|fuel IH]; intros toks structs e Hfuel; [lia|].
  cbn [parse_structs_loop]. destruct toks as [|t toks1]; [done|]. simpl in Hfuel.
  destruct (is_word_token "typedef" (t :: toks1)); [|apply IH; lia].
  destruct (is_word_token "struct" toks1);
    [|apply IH; destruct toks1; simpl in *; lia].
  destruct (at_type "LBRACE" (tail toks1));
    [|apply IH; destruct toks1 as [|? [|? ?]]; simpl in *; lia].
  pose proof (parse_fields_within_budget (S (length (tail toks1))) (tail (tail toks1)) []
                ltac:(destruct toks1 as [|? [|? ?]]; simpl; lia)) as Hf.
  destruct (parse_fields _ _ []) as [[fields toks4]|e'] eqn:Hfields;
    unfold mbind, result_bind.
  - pose proof (skip_type_length "RBRACE" toks4) as Hskip.
    destruct (skip_type "RBRACE" toks4) as [|t5 toks6];
      [intros ?; simplify_eq; by left|].
    case_bool_decide; [|intros ?; simplify_eq; by left].
    apply IH. pose proof (skip_type_length "SEMICOLON" toks6).
    destruct toks1 as [|? [|? ?]]; simpl in *; lia.
  - intros ?. simplify_eq. by right.
Qed.

Lemma parse_typedef_structs_raises tokens e :
  parse_typedef_structs tokens = Raise e →
  e = ValueError ∨ e = IndexError ∨ e = OverflowError.
Proof. apply parse_structs_loop_within_budget. lia. Qed.

Lemma parse_block_within_budget fuel :
  (∀ toks, (2 * length toks + 1 ≤ fuel)%nat →
     match parse_block fuel toks with
     | Ok (_, toks') => (length toks' < length toks)%nat
     | Raise e => toks = [] ∧ e = IndexError
     end)
  ∧ (∀ toks items, (2 * length toks + 2 ≤ fuel)%nat →
     ∃ items' toks', parse_items fuel toks items = Ok (items', toks')
                     ∧ (length toks' ≤ length toks)%nat).
Proof.
  induction fuel as [|fuel [IHblock IHitems]]; [split; intros; lia|]. split.
  - intros toks Hfuel. cbn [parse_block].
    destruct (at_type "LBRACE" toks) eqn:Hbrace.
    + destruct toks as [|t toks]; [done|]. simpl in Hfuel.
      change (tail (t :: toks)) with toks.
      destruct (IHitems toks [] ltac:(lia)) as (items' & toks' & -> & Hlen).
      simpl. pose proof (skip_type_length "RBRACE" toks'). lia.
    + destruct toks as [|t toks]; [done|]. simpl. lia.
  - intros toks items Hfuel. cbn [parse_items].
    destruct toks as [|t toks]; [by eexists _, _|]. simpl in Hfuel.
    case_bool_decide; [by eexists _, _|].
    case_bool_decide.
    + specialize (IHblock (t :: toks) ltac:(simpl; lia)).
      destruct (parse_block fuel (t :: toks)) as [[item toks'']|e]; [|by destruct IHblock].
      simpl in IHblock. unfold mbind, result_bind.
      destruct (IHitems toks'' (items ++ [item]) ltac:(lia)) as (items' & toks' & -> & Hlen).
      eexists _, _. split; [done|]. simpl. lia.
    + destruct (is_scalar_token t).
      * destruct (IHitems toks (items ++ [IStr (value t)]) ltac:(lia))
          as (items' & toks' & -> & Hlen).
        eexists _, _. split; [done|]. simpl. lia.
      * destruct (IHitems toks items ltac:(lia)) as (items' & toks' & -> & Hlen).
        eexists _, _. split; [done|]. simpl. lia.
Qed.

(** [parse_initialization] returns whenever the text holds a token, and
    raises [IndexError] on a text without token. *)
Lemma parse_initialization_total init_text :
  match parse_initialization init_text with
  | Ok _ => tokenize (remove_all comment_re init_text) ≠ []
  | Raise e => tokenize (remove_all comment_re init_text) = [] ∧ e = IndexError
  end.
Proof.
  unfold parse_initialization.
  set (tokens := tokenize (remove_all comment_re init_text)).
  pose proof (proj1 (parse_block_within_budget (2 * length tokens + 2)) tokens
                ltac:(lia)) as H.
  destruct (parse_block _ tokens) as [[parsed toks']|e]; simpl; [|done].
  destruct tokens; [simpl in H; lia|done].
Qed.

(** ** Instances with too few values *)





(** ** The array example, end to end *)

Lemma box_loaded_schema :
  structs (loaded box_object) !! "box" = Some [("v", "int", Some [3])]
  ∧ view_tree (loaded box_object) = box_view
  ∧ explicit_mapping (loaded box_object) = ∅.
Proof. vm_compute. done. Qed.


(** C1 as claimed: the declaration of the specification is not what [run]
    returns on the example. *)
Lemma C1_claimed_output_not_produced :
  run box_object "" ≠ Ok ("box b[1] = {" +:+ nl +:+ "{1, 2, 3}" +:+ nl +:+ "};").
Proof. vm_compute. discriminate. Qed.

(** C1, amended: for the full schema of the example, the same schema as
    view and no mapping table, the statement is processed into the flattened
    names v_0, v_1, v_2, the flattened values 1, 2, 3, and a declaration that
    keeps the array-of-one wrapping, with the element braced once for the
    struct and once for its array field; its three entries are the
    renderings of the view leaves v_0, v_1, v_2 against the field map. *)
Theorem C1_array_example_fully_braced :
  flatten_struct_fields (structs (loaded box_object))
    (Some (explicit_mapping (loaded box_object))) recursion_limit "box" "" ""
  = Ok ["v_0"; "v_1"; "v_2"]
  ∧ flatten_initialization <$> parse_initialization "{{ {1,2,3} }}" = Ok ["1"; "2"; "3"]
  ∧ ∃ e0 e1 e2,
      let field_map := generate_field_map ["v_0"; "v_1"; "v_2"] ["1"; "2"; "3"] in
      generate_nested_initializer (VStr "int") field_map "v_0" = Ok (FStr e0)
      ∧ generate_nested_initializer (VStr "int") field_map "v_1" = Ok (FStr e1)
      ∧ generate_nested_initializer (VStr "int") field_map "v_2" = Ok (FStr e2)
      ∧ run box_object "" =
          Ok (" box b[1] = {" +:+ nl +:+
              "{{" +:+ e0 +:+ ", " +:+ e1 +:+ ", " +:+ e2 +:+ "}}" +:+ nl +:+ "};").
Proof.
  split; [vm_compute; reflexivity|]. split; [vm_compute; reflexivity|].
  exists "0", "0", "0". vm_compute. done.
Qed.

(** ** A text without declaration for the target struct *)

Lemma load_full_structs_keeps self self' :
  load_full_structs self = Ok self' →
  init_text self' = init_text self ∧ target_struct self' = target_struct self
  ∧ init_block self' = init_block self ∧ view_file self' = view_file self
  ∧ target_view self' = target_view self ∧ mapping_file self' = mapping_file self.
Proof.
  unfold load_full_structs. destruct (parse_typedef_structs _); simpl; [|done].
  by intros [= <-].
Qed.

Lemma load_view_structs_keeps self self' :
  load_view_structs self = Ok self' →
  init_text self' = init_text self ∧ target_struct self' = target_struct self
  ∧ init_block self' = init_block self ∧ mapping_file self' = mapping_file self.
Proof.
  unfold load_view_structs. destruct (build_view_tree _ _ _); simpl; [|done].
  by intros [= <-].
Qed.

Lemma load_mapping_keeps self :
  init_text (load_mapping self) = init_text self
  ∧ target_struct (load_mapping self) = target_struct self
  ∧ init_block (load_mapping self) = init_block self.
Proof. unfold load_mapping. by destruct (mapping_file self). Qed.

(** When the two schema files load and no declaration of the target struct
    is found in the text, [run] on a fresh object stops at its read of
    [self.init_block]. *)
Lemma run_without_declaration self self1 self2 newVarName :
  init_block self = None →
  load_full_structs self = Ok self1 →
  load_view_structs self1 = Ok self2 →
  search (declaration_re (target_struct self)) (init_text self) = None →
  run self newVarName = Raise AttributeError.
Proof.
  intros Hfresh H1 H2 Hsearch. unfold run. rewrite H1. simpl. rewrite H2. simpl.
  apply load_full_structs_keeps in H1 as (Ht1 & Hs1 & Hb1 & _).
  apply load_view_structs_keeps in H2 as (Ht2 & Hs2 & Hb2 & _).
  destruct (load_mapping_keeps self2) as (Ht3 & Hs3 & Hb3).
  unfold extract_declaration_info.
  rewrite Ht3, Hs3, Ht2, Hs2, Ht1, Hs1, Hsearch.
  by rewrite Hb3, Hb2, Hb1, Hfresh.
Qed.

(** C2, on the code: the text holds a declaration of another struct only;
    [run] raises instead of returning the empty string. *)
Theorem C2_missing_instance_raises :
  search (declaration_re "box") "point p = {1, 2};" = None
  ∧ run (new box_header box_header "point p = {1, 2};" "box" "box" None "") ""
    = Raise AttributeError.
Proof.
  split; vm_compute; reflexivity.
Qed.

(** ** The round trip on an array field *)

(** C3, on the code: the schema with one array field, a literal of exactly
    its three values, the field map of the flattened names and values, and
    the view tree of the same schema; the regenerated initializer holds three
    zeros, not the values of the literal. *)
Theorem C3_round_trip_loses_array_values :
  flatten_struct_fields (<["box" := [("v", "int", Some [3])] ]> ∅) None recursion_limit
    "box" "" "" = Ok box_names
  ∧ flatten_initialization <$> parse_initialization "{1, 2, 3}" = Ok box_values
  ∧ build_view_tree recursion_limit (<["box" := [("v", "int", Some [3])] ]> ∅) "box"
    = Ok box_view
  ∧ generate_nested_initializer box_view (generate_field_map box_names box_values) ""
    = Ok (FStr "{{0, 0, 0}}")
  ∧ flatten_initialization <$> parse_initialization "{{0, 0, 0}}" = Ok ["0"; "0"; "0"]
  ∧ process_structure (loaded box_object) "{1, 2, 3}"
    = Ok (FStr "{{0, 0, 0}}", set_flat_fields box_names (loaded box_object)).
Proof. repeat split; vm_compute; reflexivity. Qed.

(** ** A field statement made of brackets only *)

(** C7, on the code: the closing brace of the block is followed by the type
    name box, and parsing fails all the same, on the name of a field
    statement that holds only a bracketed size. *)
Theorem C7_bracket_only_field_raises :
  parse_typedef_structs (tokenize "typedef struct { [3]; } box;") = Raise IndexError.
Proof. vm_compute. done. Qed.

(** ** The theorems at concrete inputs *)

Lemma C6_array_paths_witness :
  flatten_struct_fields point_structs None 1 "s" "" ""
    = Ok (["x"] ++ ((λ i, "v" +:+ "_" +:+ fmt i) <$> seq 0 3) ++ ["y"])
  ∧ flatten_struct_fields point_structs None 1 "t" "" ""
    = Ok (["x"] ++ (i ← seq 0 2; j ← seq 0 2; ["g" +:+ "_" +:+ fmt i +:+ "_" +:+ fmt j])
          ++ ["y"]).
Proof.
  split.
  - apply (proj1 (C6_array_paths_row_major point_structs None 0 "s" "v" "int"
                    [("x", "int", None)] [("y", "int", None)] ["x"] ["y"]
                    eq_refl eq_refl eq_refl eq_refl eq_refl) 3%nat).
    vm_compute. reflexivity.
  - apply (proj2 (C6_array_paths_row_major point_structs None 0 "t" "g" "int"
                    [("x", "int", None)] [("y", "int", None)] ["x"] ["y"]
                    eq_refl eq_refl eq_refl eq_refl eq_refl) 2%nat 2%nat).
    vm_compute. reflexivity.
Defined.

Lemma C9_array_leaf_witness :
  let field_map :=
    generate_field_map (["x"] ++ ((λ i, "v" +:+ "_" +:+ fmt i) <$> seq 0 3) ++ ["y_a"])
                       (["9"] ++ ["1"; "2"; "3"] ++ ["7"]) in
  field_map !! "v" = Some (FList ["1"; "2"; "3"])
  ∧ ∀ i, (i < 3)%nat → field_map !! ("v" +:+ "_" +:+ fmt i) = None.
Proof.
  apply (C9_array_leaf_grouped_under_base "v" 3 ["x"] ["y_a"] ["9"] ["1"; "2"; "3"] ["7"]).
  - done.
  - reflexivity.
  - lia.
  - reflexivity.
  - reflexivity.
  - intros x Hx. apply elem_of_app in Hx as [Hx|Hx];
      apply list_elem_of_singleton in Hx; subst x; vm_compute; discriminate.
  - intros x i Hx Hi.
    assert (i = 0 ∨ i = 1 ∨ i = 2)%nat as [->|[->| ->]] by lia;
      apply elem_of_app in Hx as [Hx|Hx];
      apply list_elem_of_singleton in Hx; subst x; vm_compute; discriminate.
Defined.


(** * Further properties *)

(** ** Flattening *)

Lemma for_extend_raise {A B : Type} (f : A → result (list B)) (items : list A) e :
  for_extend f items = Raise e → ∃ x, x ∈ items ∧ f x = Raise e.
Proof.
  induction items as [|x xs IH]; [done|]. simpl.
  destruct (f x) as [r|e'] eqn:Hx; simpl.
  - destruct (for_extend f xs) as [rs|e'] eqn:Hxs; simpl; [done|].
    intros ?. simplify_eq. destruct (IH eq_refl) as (y & ? & ?).
    exists y. split; [by right|done].
  - intros ?. simplify_eq. exists x. split; [left|done].
Qed.

Lemma for_extend_raises_at {A B : Type} (f : A → result (list B)) (items : list A) x e :
  x ∈ items → f x = Raise e → ∃ e', for_extend f items = Raise e'.
Proof.
  intros Hx Hfx. induction items as [|y ys IH]; [by apply elem_of_nil in Hx|].
  simpl. destruct (f y) as [r|e'] eqn:Hy; simpl; [|eauto].
  apply elem_of_cons in Hx as [->|Hx]; [congruence|].
  destruct (IH Hx) as [e' ->]. simpl. eauto.
Qed.

Lemma flatten_raises_recursion registry em fuel :
  ∀ struct_name sp op e,
    flatten_struct_fields registry em fuel struct_name sp op = Raise e →
    e = RecursionError.
Proof.
  induction fuel as [|fuel IH]; intros struct_name sp op e; [by intros [= <-]|].
  simpl. destruct (registry !! struct_name) as [fields|]; [|done].
  intros ([[field_name field_type] dims] & _ & Hfld)%for_extend_raise.
  unfold flatten_field in Hfld. case_bool_decide.
  - destruct dims as [dims|]; [|by eapply IH].
    apply for_extend_raise in Hfld as (idx & _ & Hidx). by eapply IH.
  - by destruct dims as [[|n dims]|].
Qed.

Lemma flatten_field_scalar registry em recur sp op name ty :
  registry !! ty = None →
  flatten_field registry em recur sp op (name, ty, None) =
    Ok [new_output_prefix em sp op name].
Proof.
  intros Hty. unfold flatten_field. rewrite Hty.
  by rewrite bool_decide_eq_false_2 by (by intros []).
Qed.

Lemma flatten_scalars registry em fuel struct_name (fields : list Field) :
  registry !! struct_name = Some fields →
  (∀ name ty dims, (name, ty, dims) ∈ fields →
     dims = None ∧ registry !! ty = None
     ∧ mapping_has em (normalize_path name) = false ∧ mapping_has em name = false) →
  flatten_struct_fields registry em (S fuel) struct_name "" "" =
    Ok (field_name_of <$> fields).
Proof.
  intros Hreg Hfields. simpl. rewrite Hreg. clear Hreg.
  induction fields as [|[[name ty] dims] fields IH]; [done|].
  destruct (Hfields name ty dims ltac:(left)) as (-> & Hty & Hn & Hf).
  cbn [for_extend]. rewrite flatten_field_scalar by done.
  rewrite (new_output_prefix_root em name Hn Hf).
  rewrite IH; [done|]. intros n t ds Hin. apply Hfields. by right.
Qed.

(** X1: a struct whose fields are all scalars of primitive types, none of
    them with a mapping override, flattens to the names of its fields in
    the order of declaration. *)
Theorem flatten_scalars_in_declaration_order
    (registry : gmap string (list Field)) (em : option (gmap string string))
    (fuel : nat) (struct_name : string) (fields : list Field) :
  registry !! struct_name = Some fields →
  (∀ name ty dims, (name, ty, dims) ∈ fields →
     dims = None ∧ registry !! ty = None
     ∧ mapping_has em (normalize_path name) = false ∧ mapping_has em name = false) →
  flatten_struct_fields registry em (S fuel) struct_name "" "" =
    Ok (field_name_of <$> fields).
Proof. apply flatten_scalars. Qed.

(** X2: a struct with a scalar field of its own type is never flattened:
    whatever the depth allowed, the recursion runs out and the result is
    [RecursionError]. *)
Theorem flatten_self_reference_never_returns
    (registry : gmap string (list Field)) (em : option (gmap string string))
    (struct_name field_name : string) (fields : list Field) :
  registry !! struct_name = Some fields →
  (field_name, struct_name, None) ∈ fields →
  ∀ fuel source_prefix output_prefix,
    flatten_struct_fields registry em fuel struct_name source_prefix output_prefix
    = Raise RecursionError.
Proof.
  intros Hreg Hin fuel. induction fuel as [|fuel IH]; intros sp op; [done|].
  destruct (flatten_struct_fields registry em (S fuel) struct_name sp op) as [r|e] eqn:Hres.
  - exfalso. simpl in Hres. rewrite Hreg in Hres.
    destruct (for_extend_raises_at
                (flatten_field registry em (flatten_struct_fields registry em fuel) sp op)
                fields _ RecursionError Hin) as [e' He'];
      [|rewrite He' in Hres; done].
    unfold flatten_field. rewrite Hreg.
    rewrite bool_decide_eq_true_2 by eauto. apply IH.
  - f_equal. by eapply flatten_raises_recursion.
Qed.

(** ** The field map *)

Lemma field_map_loop_take names values result temp :
  field_map_loop names values result temp =
  field_map_loop (take (length values) names) (take (length names) values) result temp.
Proof.
  revert values result temp.
  induction names as [|name names IH]; intros [|v values] result temp; try done.
  simpl. by destruct (indexed_base name); rewrite IH.
Qed.

Lemma field_map_loop_take_values names values :
  (length names ≤ length values)%nat →
  generate_field_map names values =
  generate_field_map names (take (length names) values).
Proof.
  intros Hlen. unfold generate_field_map.
  rewrite field_map_loop_take. by rewrite firstn_all2 by done.
Qed.

(** X3: [generate_field_map] pairs names and values position by position
    and stops at the shorter list: values beyond the names are ignored, and
    names beyond the values get no entry. *)
Theorem generate_field_map_stops_at_shorter (names values : list string) :
  generate_field_map names values =
  generate_field_map (take (length values) names) (take (length names) values).
Proof. unfold generate_field_map. by rewrite field_map_loop_take. Qed.

Lemma indexed_key_absent (names values : list string) (key : string) :
  is_Some (indexed_base key) →
  (∀ x, x ∈ names → indexed_base x ≠ Some key) →
  generate_field_map names values !! key = None.
Proof.
  intros Hkey Hnames.
  rewrite generate_field_map_lookup, field_map_loop_temp.
  rewrite grouped_none by done. rewrite lookup_empty.
  by rewrite field_map_loop_result.
Qed.


Lemma field_map_loop_plain names values result temp :
  (∀ x, x ∈ names → indexed_base x = None) →
  field_map_loop names values result temp =
  (foldl (λ r nv, <[nv.1 := FStr nv.2]> r) result (zip names values), temp).
Proof.
  revert values result.
  induction names as [|name names IH]; intros [|v values] result Hplain; try done.
  simpl. rewrite (Hplain name) by left. apply IH. intros x Hx. apply Hplain. by right.
Qed.

Lemma foldl_insert_other (pairs : list (string * string)) (r : gmap string fval) key :
  key ∉ pairs.*1 →
  foldl (λ r nv, <[nv.1 := FStr nv.2]> r) r pairs !! key = r !! key.
Proof.
  revert r. induction pairs as [|[n v] pairs IH]; intros r Hkey; [done|].
  simpl in *. apply not_elem_of_cons in Hkey as [Hne Hkey].
  rewrite IH by done. by apply lookup_insert_ne.
Qed.

Lemma plain_field_map_lookup names values :
  NoDup names → (∀ x, x ∈ names → indexed_base x = None) →
  ∀ i name v, names !! i = Some name → values !! i = Some v →
    generate_field_map names values !! name = Some (FStr v).
Proof.
  intros Hdup Hplain i name v Hname Hv. unfold generate_field_map.
  rewrite field_map_loop_plain by done.
  rewrite fmap_empty, (left_id_L ∅ (∪)).
  generalize (∅ : gmap string fval). revert values i Hname Hv.
  induction names as [|n names IH]; intros values i Hname Hv r; [done|].
  destruct values as [|v0 values]; [done|].
  apply NoDup_cons in Hdup as [Hn Hdup]. simpl.
  destruct i as [|i]; simplify_eq/=.
  - rewrite foldl_insert_other; [by rewrite lookup_insert_eq|].
    intros Hin. apply Hn. apply list_elem_of_fmap in Hin as ([a b] & -> & Hin).
    by apply elem_of_zip_l in Hin.
  - eapply IH; eauto. intros x Hx. apply Hplain. by right.
Qed.

(** ** The generator *)

Lemma bind_ok {A B : Type} (a : A) (f : A → result B) : Ok a ≫= f = f a.
Proof. done. Qed.

Lemma for_each_ext {A B : Type} (f g : A → result B) (items : list A) :
  (∀ x, x ∈ items → f x = g x) → for_each f items = for_each g items.
Proof.
  induction items as [|x xs IH]; intros Hfg; [done|].
  simpl. rewrite Hfg by left. destruct (g x); simpl; [|done].
  rewrite IH; [done|]. intros y Hy. apply Hfg. by right.
Qed.

Lemma generate_dict items field_map prefix :
  generate_nested_initializer (VDict items) field_map prefix =
  for_each (render_part field_map prefix) items ≫= braced.
Proof.
  cbn [generate_nested_initializer]. f_equal.
  induction items as [|[key sub] items IH]; [done|].
  cbn [for_each]. rewrite <-IH. clear IH. f_equal.
  unfold render_part. cbn [fst snd].
  destruct sub as [?|?|sub_items]; try done.
  destruct (dict_has "array" sub_items && dict_has "fields" sub_items); [|done].
  destruct (dict_get "array" sub_items) as [[?|size|?]|]; try done.
  f_equal. apply for_each_ext. intros i _. unfold render_element.
  destruct (field_map !! _); [done|].
  induction sub_items as [|[k v] sub_items IH]; [done|].
  cbn [dict_get]. by case_bool_decide.
Qed.

Lemma join_values_texts sep (texts : list string) :
  join_values sep (FStr <$> texts) = Ok (join sep texts).
Proof.
  unfold join_values.
  assert (for_each (λ v, match v with FStr t => Ok t | FList _ => Raise TypeError end)
            (FStr <$> texts) = Ok texts) as ->; [|done].
  induction texts as [|t texts IH]; [done|].
  change (FStr <$> t :: texts) with (FStr t :: (FStr <$> texts)).
  cbn [for_each]. by rewrite IH.
Qed.

Lemma braced_texts (texts : list string) :
  braced (FStr <$> texts) = Ok (FStr ("{" +:+ join ", " texts +:+ "}")).
Proof. unfold braced. by rewrite join_values_texts. Qed.

Lemma for_each_replicate {A B : Type} (f : A → result B) (items : list A) (y : B) :
  (∀ x, x ∈ items → f x = Ok y) → for_each f items = Ok (replicate (length items) y).
Proof.
  induction items as [|x xs IH]; intros Hf; [done|].
  simpl. rewrite Hf by left. simpl. rewrite IH; [done|].
  intros z Hz. apply Hf. by right.
Qed.

(** X5: a view field that is an array of [n] leaves renders as [n] zeros
    whenever the field map has none of the keys key_0 .. key_(n-1); and the
    field map built from the names base_0 .. base_(n-1) of an array leaf has
    none of them, whatever the values: a struct made of one array of
    primitives is regenerated as zeros. *)
Theorem array_of_leaves_renders_zeros
    (base leaf_type : string) (n : nat) (values : list string) :
  base ≠ "" → no_newline base = true →
  (∀ (field_map : gmap string fval) (prefix : string),
     (∀ i, (i < n)%nat → field_map !! (full_key prefix base +:+ "_" +:+ fmt i) = None) →
     generate_nested_initializer
       (VDict [(base, leaf_array (Z.of_nat n) leaf_type)]) field_map prefix
     = Ok (FStr ("{" +:+ ("{" +:+ join ", " (replicate n "0") +:+ "}") +:+ "}")))
  ∧ generate_nested_initializer (VDict [(base, leaf_array (Z.of_nat n) leaf_type)])
      (generate_field_map ((λ i, base +:+ "_" +:+ fmt i) <$> seq 0 n) values) ""
    = Ok (FStr ("{" +:+ ("{" +:+ join ", " (replicate n "0") +:+ "}") +:+ "}")).
Proof.
  intros Hbase Hnl.
  assert (Hzeros : ∀ (field_map : gmap string fval) (prefix : string),
     (∀ i, (i < n)%nat → field_map !! (full_key prefix base +:+ "_" +:+ fmt i) = None) →
     generate_nested_initializer
       (VDict [(base, leaf_array (Z.of_nat n) leaf_type)]) field_map prefix
     = Ok (FStr ("{" +:+ ("{" +:+ join ", " (replicate n "0") +:+ "}") +:+ "}"))).
  { intros field_map prefix Hnone. rewrite generate_dict. cbn [for_each].
    unfold render_part, leaf_array. cbn [fst snd].
    change (dict_has "array" _ && dict_has "fields" _) with true. cbv iota.
    change (dict_get "array" _) with (Some (VInt (Z.of_nat n))). cbv iota.
    unfold range. rewrite Nat2Z.id.
    rewrite (for_each_replicate _ _ (FStr "0")).
    - rewrite length_seq, bind_ok.
      rewrite <-(fmap_replicate FStr n "0"), braced_texts, !bind_ok.
      exact (braced_texts [_]).
    - intros i [_ Hi]%elem_of_seq. unfold render_element.
      rewrite Hnone by (simpl in Hi; lia). simpl. by rewrite Hnone by (simpl in Hi; lia). }
  split; [exact Hzeros|].
  apply Hzeros. intros i Hi. unfold full_key. simpl.
  apply indexed_key_absent.
  - destruct (fmt_digits i). rewrite indexed_base_index by done. eauto.
  - intros x (j & -> & _)%list_elem_of_fmap.
    destruct (fmt_digits j). rewrite indexed_base_index by done.
    intros [= Heq]. by apply app_longer in Heq.
Qed.

Lemma render_part_leaf field_map key leaf_type v :
  field_map !! key = Some v → render_part field_map "" (key, VStr leaf_type) = Ok v.
Proof. intros Hv. unfold render_part, full_key. simpl. by rewrite Hv. Qed.

Lemma for_each_leaves field_map names (types values : list string) :
  length values = length names → length types = length names →
  (∀ i name v, names !! i = Some name → values !! i = Some v →
     field_map !! name = Some (FStr v)) →
  for_each (render_part field_map "") (zip names (VStr <$> types)) = Ok (FStr <$> values).
Proof.
  revert types values.
  induction names as [|name names IH]; intros [|ty types] [|v values] Hl1 Hl2 Hmap;
    try done.
  change (zip (name :: names) (VStr <$> ty :: types))
    with ((name, VStr ty) :: zip names (VStr <$> types)).
  cbn [for_each].
  rewrite (render_part_leaf _ _ _ (FStr v)) by apply (Hmap 0%nat name v eq_refl eq_refl).
  rewrite bind_ok, (IH types values); [done|by simplify_eq/=..|].
  intros i n' v' Hn Hv. by apply (Hmap (S i)).
Qed.

(** X6: names that are distinct and not of the indexed form, with as many
    values, are regenerated as they came: the flat view of leaves with these
    names renders the values in order, separated by a comma and a blank,
    between braces. *)
Theorem flat_leaves_render_the_values (names types values : list string) :
  NoDup names → (∀ x, x ∈ names → indexed_base x = None) →
  length values = length names → length types = length names →
  generate_nested_initializer (VDict (zip names (VStr <$> types)))
    (generate_field_map names values) ""
  = Ok (FStr ("{" +:+ join ", " values +:+ "}")).
Proof.
  intros Hdup Hplain Hl1 Hl2. rewrite generate_dict.
  rewrite (for_each_leaves _ names types values); [|done|done|].
  - rewrite bind_ok. apply braced_texts.
  - by apply plain_field_map_lookup.
Qed.

(** The nested induction on view trees: a property of a dict follows from
    the property of the subtrees of its items. *)
Lemma vtree_nested_ind (P : vtree → Prop) :
  (∀ s, P (VStr s)) → (∀ n, P (VInt n)) →
  (∀ items, Forall (λ item, P item.2) items → P (VDict items)) →
  ∀ t, P t.
Proof.
  intros Hstr Hint Hdict. fix IH 1. intros [s|n|items]; [apply Hstr|apply Hint|].
  apply Hdict. induction items as [|[k v] items IHitems]; constructor; [apply IH|done].
Qed.

Lemma for_each_raise {A B : Type} (f : A → result B) (items : list A) e :
  for_each f items = Raise e → ∃ x, x ∈ items ∧ f x = Raise e.
Proof.
  induction items as [|x xs IH]; [done|]. simpl.
  destruct (f x) as [y|e'] eqn:Hx; simpl.
  - destruct (for_each f xs) as [ys|e'] eqn:Hxs; simpl; [done|].
    intros ?. simplify_eq. destruct (IH eq_refl) as (z & ? & ?).
    exists z. split; [by right|done].
  - intros ?. simplify_eq. exists x. split; [left|done].
Qed.

Lemma braced_raise parts e : braced parts = Raise e → e = TypeError.
Proof.
  unfold braced, join_values.
  destruct (for_each _ parts) as [texts|e'] eqn:Hparts; simpl; [done|].
  intros ?. simplify_eq.
  apply for_each_raise in Hparts as ([t|ts] & _ & Hv); [done|]. congruence.
Qed.

Lemma dict_get_elem {V : Type} key (items : list (string * V)) v :
  dict_get key items = Some v → (key, v) ∈ items.
Proof.
  induction items as [|[k v'] items IH]; [done|]. simpl.
  case_bool_decide; [intros ?; simplify_eq; left|intros ?; right; auto].
Qed.

Lemma generate_raises_type_error view_tree :
  ∀ field_map prefix e,
    generate_nested_initializer view_tree field_map prefix = Raise e → e = TypeError.
Proof.
  cut ((∀ field_map prefix e,
          generate_nested_initializer view_tree field_map prefix = Raise e → e = TypeError)
       ∧ ∀ items, view_tree = VDict items →
           Forall (λ item, ∀ field_map prefix e,
             generate_nested_initializer item.2 field_map prefix = Raise e → e = TypeError)
             items); [by intros []|].
  induction view_tree as [s|n|items IH] using vtree_nested_ind.
  - split; [|done]. intros field_map prefix e. simpl. by destruct (field_map !! prefix).
  - by split.
  - assert (Hsubs : Forall (λ item, ∀ field_map prefix e,
             generate_nested_initializer item.2 field_map prefix = Raise e → e = TypeError)
             items).
    { eapply Forall_impl; [exact IH|]. by intros item []. }
    split; [|by intros ? [= <-]].
    intros field_map prefix e. rewrite generate_dict.
    destruct (for_each (render_part field_map prefix) items) as [parts|e'] eqn:Hparts.
    { rewrite bind_ok. apply braced_raise. }
    simpl. intros ?. simplify_eq.
    apply for_each_raise in Hparts as ([key sub] & Hin & Hpart).
    rewrite Forall_forall in IH, Hsubs.
    assert (Hplain : ∀ e', match field_map !! full_key prefix key with
                           | Some v => Ok v
                           | None => generate_nested_initializer sub field_map
                                       (full_key prefix key)
                           end = Raise e' → e' = TypeError).
    { intros e'. destruct (field_map !! _); [done|]. apply (Hsubs _ Hin). }
    unfold render_part in Hpart. cbn [fst snd] in Hpart.
    destruct sub as [?|?|sub_items]; [by apply Hplain..|].
    destruct (dict_has "array" sub_items && dict_has "fields" sub_items) eqn:Harr;
      [|by apply Hplain].
    apply andb_true_iff in Harr as [_ Hhas].
    destruct (dict_get "array" sub_items) as [[?|size|?]|]; try congruence.
    destruct (for_each _ (range size)) as [elems|e'] eqn:Helems.
    { rewrite bind_ok in Hpart. by apply braced_raise in Hpart. }
    simpl in Hpart. simplify_eq.
    apply for_each_raise in Helems as (i & _ & Helem).
    unfold render_element in Helem.
    destruct (field_map !! _); [done|].
    destruct (dict_get "fields" sub_items) as [v|] eqn:Hfields.
    + destruct (IH _ Hin) as [_ Hitems]. specialize (Hitems sub_items eq_refl).
      rewrite Forall_forall in Hitems.
      apply dict_get_elem in Hfields. by apply (Hitems _ Hfields) in Helem.
    + unfold dict_has in Hhas. rewrite Hfields in Hhas.
      apply bool_decide_eq_true in Hhas. by destruct Hhas.
Qed.

(** X7: the only exception [generate_nested_initializer] raises is
    [TypeError], whatever the view tree, the field map and the prefix: the
    join of a list value, or an array size that is no number. *)
Theorem rendering_raises_only_type_error
    (view_tree : vtree) (field_map : gmap string fval) (prefix : string) (e : exn) :
  generate_nested_initializer view_tree field_map prefix = Raise e → e = TypeError.
Proof. apply generate_raises_type_error. Qed.

Lemma for_each_ok_elem {A B : Type} (f : A → result B) (items : list A) ys x :
  for_each f items = Ok ys → x ∈ items → ∃ y, y ∈ ys ∧ f x = Ok y.
Proof.
  revert ys. induction items as [|x' xs IH]; intros ys Hok Hx;
    [by apply elem_of_nil in Hx|].
  simpl in Hok. destruct (f x') as [y'|] eqn:Hx'; [|done]. simpl in Hok.
  destruct (for_each f xs) as [ys'|] eqn:Hxs; [|done]. simpl in Hok. simplify_eq.
  apply elem_of_cons in Hx as [->|Hx].
  - exists y'. split; [left|done].
  - destruct (IH ys' eq_refl Hx) as (y & ? & ?). exists y. split; [by right|done].
Qed.

(** X8: when the field map holds a list under the key of a view field that
    is a leaf (the full schema declares an array where the view declares a
    scalar), [generate_nested_initializer] raises [TypeError]: the list cannot
    be joined into the text. *)
Theorem list_under_leaf_raises_type_error
    (items : list (string * vtree)) (field_map : gmap string fval)
    (prefix key leaf_type : string) (texts : list string) :
  (key, VStr leaf_type) ∈ items →
  field_map !! full_key prefix key = Some (FList texts) →
  generate_nested_initializer (VDict items) field_map prefix = Raise TypeError.
Proof.
  intros Hin Hlist.
  destruct (generate_nested_initializer (VDict items) field_map prefix) as [out|e] eqn:Hgen;
    [exfalso|f_equal; by eapply generate_raises_type_error].
  rewrite generate_dict in Hgen.
  destruct (for_each (render_part field_map prefix) items) as [parts|] eqn:Hparts; [|done].
  rewrite bind_ok in Hgen.
  destruct (for_each_ok_elem _ _ _ _ Hparts Hin) as (part & Hpart & Hrender).
  unfold render_part in Hrender. cbn [fst snd] in Hrender. rewrite Hlist in Hrender.
  simplify_eq. unfold braced, join_values in Hgen.
  destruct (for_each _ parts) as [ts|] eqn:Hts; [|done].
  by destruct (for_each_ok_elem _ _ _ _ Hts Hpart) as (t & _ & ?).
Qed.

(** ** View trees *)

Lemma dict_set_fresh {V : Type} key (v : V) (items : list (string * V)) :
  key ∉ items.*1 → dict_set key v items = items ++ [(key, v)].
Proof.
  induction items as [|[k v'] items IH]; intros Hkey; [done|].
  simpl in *. apply not_elem_of_cons in Hkey as [Hne Hkey].
  rewrite bool_decide_eq_false_2 by done. by rewrite IH.
Qed.

(** X9: the view tree of a struct whose fields have types that are not
    view structs, under distinct names, is the dict of its fields in the
    order of declaration: a scalar field with the leaf of its type, an array
    field with the array node of its first dimension over that leaf. *)
Theorem view_tree_of_primitive_fields
    (view_defs : gmap string (list Field)) (fuel : nat) (struct_name : string)
    (fields : list Field) :
  view_defs !! struct_name = Some fields →
  NoDup (field_name_of <$> fields) →
  (∀ name ty dims, (name, ty, dims) ∈ fields → view_defs !! ty = None) →
  build_view_tree (S fuel) view_defs struct_name = Ok (VDict (view_of <$> fields)).
Proof.
  intros Hdefs Hdup Hfields. cbn [build_view_tree]. unfold Field in *. rewrite Hdefs.
  match goal with |- context [foldl ?f _ _] => set (step := f) end.
  assert (Hfold : ∀ tree, (∀ k, k ∈ tree.*1 → k ∉ field_name_of <$> fields) →
            foldl step (Ok tree) fields = Ok (tree ++ (view_of <$> fields))).
  { clear Hdefs. revert Hdup Hfields.
    induction fields as [|[[name ty] dims] fields IH]; intros Hdup Hfields tree Hfresh.
    - simpl. by rewrite app_nil_r.
    - pose proof (Hfields name ty dims ltac:(left)) as Hty.
      apply NoDup_cons in Hdup as [Hname Hdup].
      assert (Hrest : ∀ n t ds, (n, t, ds) ∈ fields → view_defs !! t = None).
      { intros n t ds Hin. apply (Hfields n t ds). by right. }
      specialize (IH Hdup Hrest).
      cbn [foldl]. unfold step at 2. rewrite bind_ok. rewrite Hty.
      rewrite bool_decide_eq_false_2 by (by intros []). rewrite bind_ok.
      assert (Hset : ∀ sub, dict_set name sub tree = tree ++ [(name, sub)]).
      { intros sub. apply dict_set_fresh. intros Hk. apply Hfresh in Hk. apply Hk. left. }
      assert (Hnext : ∀ sub, (name, sub) = view_of (name, ty, dims) →
                foldl step (Ok (tree ++ [(name, sub)])) fields
                = Ok (tree ++ (view_of <$> (name, ty, dims) :: fields))).
      { intros sub ->. rewrite IH; [by rewrite <-app_assoc|].
        intros k Hk. rewrite fmap_app in Hk. apply elem_of_app in Hk as [Hk|Hk].
        * apply Hfresh in Hk. by apply not_elem_of_cons in Hk as [_ ?].
        * apply list_elem_of_singleton in Hk. by subst k. }
      destruct dims as [dims|]; rewrite Hset; by apply Hnext. }
  rewrite Hfold; [done|]. by intros k ?%elem_of_nil.
Qed.

(** ** A struct of scalars, from the parsed initializer to the text *)

Lemma leaf_of_zip (fields : list Field) :
  leaf_of <$> fields =
  zip (field_name_of <$> fields) (VStr <$> ((λ fld : Field, fld.1.2) <$> fields)).
Proof.
  induction fields as [|[[n t] ds] fields IH]; [done|].
  rewrite !fmap_cons. cbn [zip_with]. by f_equal.
Qed.

Lemma flatten_initialization_scalars (values : list string) :
  flatten_initialization (IList (IStr <$> values)) = values.
Proof.
  cbn [flatten_initialization].
  induction values as [|v values IH]; [done|].
  rewrite fmap_cons. cbn [flat_map flatten_initialization]. by rewrite IH.
Qed.

Lemma mapping_has_empty key : mapping_has (Some ∅) key = false.
Proof. done. Qed.

(** X10: on an object whose target struct is made of scalars of primitive
    types, with distinct names that are not of the indexed form, no mapping
    table and the view tree of the same fields, [process_structure] turns a
    flat initializer into the text of its first values, one per field, in
    order; values beyond the fields are dropped, and an initializer with
    fewer values than fields gives the empty string. *)
Theorem process_structure_on_scalars
    (self : C_deStructor) (init_block : string) (fields : list Field)
    (values : list string) :
  parse_initialization init_block = Ok (IList (IStr <$> values)) →
  structs self !! target_struct self = Some fields →
  explicit_mapping self = ∅ →
  view_tree self = VDict (leaf_of <$> fields) →
  NoDup (field_name_of <$> fields) →
  (∀ name ty dims, (name, ty, dims) ∈ fields →
     dims = None ∧ structs self !! ty = None ∧ indexed_base name = None) →
  process_structure self init_block =
    if (length values <? length fields)%nat then Ok (FStr "", self)
    else Ok (FStr ("{" +:+ join ", " (take (length fields) values) +:+ "}"),
             set_flat_fields (field_name_of <$> fields) self).
Proof.
  intros Hparse Hstructs Hmap Hview Hdup Hfields.
  unfold process_structure. rewrite Hparse, bind_ok.
  pose proof (flatten_initialization_scalars values) as Hflat.
  assert (Hnames : flatten_struct_fields (structs self) (Some (explicit_mapping self))
            recursion_limit (target_struct self) "" "" = Ok (field_name_of <$> fields)).
  { change recursion_limit with (S 999). apply flatten_scalars; [done|].
    intros name ty dims Hin. destruct (Hfields name ty dims Hin) as (? & ? & _).
    rewrite Hmap. by rewrite !mapping_has_empty. }
  assert (process_parsed self (IList (IStr <$> values)) =
          (ok ← check_structure_type self (flatten_initialization (IList (IStr <$> values)));
           if negb ok then Ok (FStr "", self)
           else render_instance self (flatten_initialization (IList (IStr <$> values)))))
    as -> by (by destruct values).
  rewrite Hflat.
  unfold check_structure_type. rewrite Hnames, bind_ok, length_fmap.
  destruct (length values <? length fields)%nat eqn:Hlen; [done|].
  apply Nat.ltb_ge in Hlen. rewrite bind_ok. cbn [negb].
  unfold render_instance. rewrite Hnames, bind_ok.
  cbn [flat_fields set_flat_fields view_tree]. rewrite Hview.
  rewrite field_map_loop_take_values, leaf_of_zip, generate_dict, length_fmap
    by (by rewrite length_fmap).
  rewrite (for_each_leaves _ _ _ (take (length fields) values)).
  - by rewrite bind_ok, braced_texts.
  - rewrite length_take, length_fmap. lia.
  - by rewrite !length_fmap.
  - apply plain_field_map_lookup; [done|].
    intros x ([[n t] ds] & -> & Hin)%list_elem_of_fmap. by apply (Hfields n t ds).
Qed.

(** ** The schema parser on well-formed and on broken input *)

Lemma parse_structs_loop_no_typedef fuel :
  ∀ toks structs, (length toks < fuel)%nat →
    (∀ t, t ∈ toks → ¬ (type t = "ID" ∧ value t = "typedef")) →
    parse_structs_loop fuel toks structs = Ok structs.
Proof.
  induction fuel as [|fuel IH]; intros toks structs Hfuel Hno; [lia|].
  cbn [parse_structs_loop]. destruct toks as [|t toks]; [done|]. simpl in Hfuel.
  assert (is_word_token "typedef" (t :: toks) = false) as ->.
  { simpl. apply andb_false_iff.
    destruct (decide (type t = "ID")) as [Hty|Hty];
      [right|left]; apply bool_decide_eq_false_2; [|done].
    intros Hv. apply (Hno t); [left|done]. }
  apply IH; [lia|]. intros t' Ht'. apply Hno. by right.
Qed.

(** X11: a token stream without the word typedef gives the empty registry,
    and no error. *)
Theorem no_typedef_gives_empty_registry (tokens : list Token) :
  (∀ t, t ∈ tokens → ¬ (type t = "ID" ∧ value t = "typedef")) →
  parse_typedef_structs tokens = Ok ∅.
Proof. intros Hno. apply parse_structs_loop_no_typedef; [lia|done]. Qed.

Lemma strip_dims_stop rev_tokens dims :
  ¬ at_type "RBRACKET" rev_tokens →
  strip_dims rev_tokens dims = Ok (rev_tokens, dims).
Proof.
  intros Hstop. destruct rev_tokens as [|t1 [|t2 [|t3 rest]]]; try done.
  simpl in *. apply Is_true_false in Hstop.
  rewrite Hstop. by rewrite andb_false_r.
Qed.

Lemma strip_dims_groups texts :
  ∀ dims rest acc,
    Forall2 (λ text z, int_of_float_text text = Ok z) texts dims →
    strip_dims (reverse (dim_tokens texts) ++ rest) acc = strip_dims rest (dims ++ acc).
Proof.
  induction texts as [|text texts IH] using rev_ind; intros dims rest acc Hdims.
  - by apply Forall2_nil_inv_l in Hdims as ->.
  - apply Forall2_app_inv_l in Hdims as (dims1 & dims2 & Hd1 & Hd2 & ->).
    apply Forall2_cons_inv_l in Hd2 as (z & dims3 & Hz & Hd3 & ->).
    apply Forall2_nil_inv_l in Hd3 as ->.
    unfold dim_tokens. rewrite bind_app, reverse_app. fold (dim_tokens texts).
    cbn [mbind list_bind app reverse]. rewrite reverse_cons, reverse_cons, reverse_singleton.
    cbn [app]. rewrite <-app_assoc. cbn [app strip_dims type value].
    simpl bool_decide. cbn [andb]. rewrite Hz, bind_ok.
    by rewrite (IH dims1) by done.
Qed.

(** X12: in a field statement the token before the bracketed sizes is the
    name, the texts of the tokens before it, joined by blanks, are the type
    (so a type of several words is kept), and the sizes become the
    dimensions in the order of declaration, the outer one first.  [dims] are
    the integers that [int(float(..))] makes of the size texts. *)
Theorem parse_field_statement
    (type_tokens : list Token) (name_token : Token) (texts : list string)
    (dims : list Z) :
  type name_token ≠ "RBRACKET" →
  Forall2 (λ text z, int_of_float_text text = Ok z) texts dims →
  parse_field (type_tokens ++ name_token :: dim_tokens texts) =
    Ok (value name_token, strip (join " " (value <$> type_tokens)),
        match dims with [] => None | _ => Some dims end).
Proof.
  intros Hname Hdims. unfold parse_field.
  rewrite reverse_app, reverse_cons, <-!app_assoc.
  rewrite (strip_dims_groups texts dims) by done.
  rewrite strip_dims_stop.
  - rewrite bind_ok. cbn [app]. by rewrite reverse_involutive, app_nil_r.
  - cbn [app]. simpl. intros Htype%Is_true_true%bool_decide_eq_true. done.
Qed.

Lemma take_field_tokens_statement statement rest :
  (∀ t, t ∈ statement → type t ≠ "SEMICOLON") →
  take_field_tokens (statement ++ MkToken "SEMICOLON" ";" :: rest) =
    (statement, MkToken "SEMICOLON" ";" :: rest).
Proof.
  induction statement as [|t statement IH]; intros Hno; [done|].
  cbn [app take_field_tokens].
  rewrite bool_decide_eq_false_2 by (apply Hno; left).
  rewrite IH; [done|]. intros t' Ht'. apply Hno. by right.
Qed.

Lemma parse_fields_statements statements :
  ∀ fields acc rest fuel,
    Forall2 statement_of statements fields →
    rest = [] ∨ at_type "RBRACE" rest = true →
    (length statements < fuel)%nat →
    parse_fields fuel ((statements ≫= λ st, st ++ [MkToken "SEMICOLON" ";"]) ++ rest) acc
    = Ok (acc ++ fields, rest).
Proof.
  induction statements as [|st statements IH]; intros fields acc rest fuel Hst Hrest Hfuel;
    (destruct fuel as [|fuel]; [lia|]).
  - apply Forall2_nil_inv_l in Hst as ->. rewrite app_nil_r.
    cbn [mbind list_bind app parse_fields].
    destruct Hrest as [->| ->]; [done|]. by rewrite orb_true_r.
  - apply Forall2_cons_inv_l in Hst as (fld & fields' & (Hne & Hsemi & Hbrace & Hfld) & Hst & ->).
    rewrite bind_cons, <-!app_assoc. cbn [parse_fields].
    set (more := [MkToken "SEMICOLON" ";"] ++ _).
    assert (bool_decide (st ++ more = []) = false) as ->
      by (destruct st; [done|by apply bool_decide_eq_false_2]).
    assert (at_type "RBRACE" (st ++ more) = false) as -> by (by destruct st).
    cbn [orb]. subst more. cbn [app].
    rewrite (take_field_tokens_statement st) by done.
    change (skip_type "SEMICOLON" (MkToken "SEMICOLON" ";" :: ?l)) with l.
    destruct st as [|t st]; [done|].
    rewrite Hfld, bind_ok.
    rewrite IH with (fields := fields') by (done || simpl in *; lia).
    by rewrite <-app_assoc.
Qed.

Lemma statements_length (statements : list (list Token)) :
  (length statements
   ≤ length (statements ≫= λ st, st ++ [MkToken "SEMICOLON" ";"]))%nat.
Proof.
  induction statements as [|st statements IH]; [done|].
  rewrite bind_cons, !length_app. simpl. lia.
Qed.

Lemma parse_structs_loop_typedef fuel body structs :
  parse_structs_loop (S fuel)
    (MkToken "ID" "typedef" :: MkToken "ID" "struct" :: MkToken "LBRACE" "{" :: body) structs
  = '(fields, toks4) ← parse_fields (S (length (MkToken "LBRACE" "{" :: body))) body [];
    match skip_type "RBRACE" toks4 with
    | t :: toks6 =>
        if bool_decide (type t = "ID") then
          parse_structs_loop fuel (skip_type "SEMICOLON" toks6) (<[value t := fields]> structs)
        else Raise ValueError
    | [] => Raise ValueError
    end.
Proof. done. Qed.

Lemma parse_structs_loop_nil fuel structs :
  parse_structs_loop (S fuel) [] structs = Ok structs.
Proof. done. Qed.

(** X13: the tokens of one well-formed typedef (field statements closed by
    semicolons, a closing brace, the type name, a semicolon) are parsed into
    the registry that binds the type name to the fields of the statements,
    in order. *)
Theorem parse_typedef_of_statements
    (struct_name : string) (statements : list (list Token)) (fields : list Field) :
  Forall2 statement_of statements fields →
  parse_typedef_structs (typedef_tokens struct_name statements) = Ok {[struct_name := fields]}.
Proof.
  intros Hst. unfold parse_typedef_structs, typedef_tokens.
  cbn [app length]. rewrite parse_structs_loop_typedef.
  rewrite (parse_fields_statements statements fields []);
    [|done|by right|
     pose proof (statements_length statements); cbn [length]; rewrite length_app; lia].
  rewrite bind_ok. cbn [app].
  change (skip_type "RBRACE" (MkToken "RBRACE" "}" :: ?l)) with l.
  cbn [type value]. rewrite bool_decide_eq_true_2 by done.
  change (skip_type "SEMICOLON" [MkToken "SEMICOLON" ";"]) with (@nil Token).
  by rewrite parse_structs_loop_nil.
Qed.

Lemma parse_structs_loop_typedefs typedefs :
  ∀ parsed structs fuel,
    Forall2 typedef_of typedefs parsed →
    (length (header_tokens typedefs) < fuel)%nat →
    parse_structs_loop fuel (header_tokens typedefs) structs =
      Ok (foldl (λ m p, <[p.1 := p.2]> m) structs parsed).
Proof.
  induction typedefs as [|[name statements] typedefs IH];
    intros parsed structs fuel Hdefs Hfuel; (destruct fuel as [|fuel]; [lia|]).
  - by apply Forall2_nil_inv_l in Hdefs as ->.
  - apply Forall2_cons_inv_l in Hdefs as ([name' fields] & parsed' & [Hname Hst] & Hdefs & ->).
    simpl in Hname, Hst. subst name'.
    unfold header_tokens in *. rewrite bind_cons in *. fold (header_tokens typedefs) in *.
    unfold typedef_tokens in *. cbn [fst snd] in *.
    rewrite <-!app_assoc in *. cbn [app] in *.
    rewrite parse_structs_loop_typedef.
    rewrite (parse_fields_statements statements fields []);
      [|done|by right|
       pose proof (statements_length statements); cbn [length]; rewrite length_app; lia].
    rewrite bind_ok. cbn [app].
    change (skip_type "RBRACE" (MkToken "RBRACE" "}" :: ?l)) with l.
    cbn [type value]. rewrite bool_decide_eq_true_2 by done.
    change (skip_type "SEMICOLON" (MkToken "SEMICOLON" ";" :: ?l)) with l.
    cbn [foldl fst snd]. apply IH; [done|].
    cbn [length] in Hfuel. rewrite length_app in Hfuel. cbn [length] in Hfuel. lia.
Qed.

(** X14: a header made of well-formed typedefs is parsed into the registry
    that holds, for every typedef in turn, its fields under its name: a
    later typedef of a name replaces an earlier one. *)
Theorem parse_header_of_typedefs
    (typedefs : list (string * list (list Token))) (parsed : list (string * list Field)) :
  Forall2 typedef_of typedefs parsed →
  parse_typedef_structs (header_tokens typedefs) =
    Ok (foldl (λ registry p, <[p.1 := p.2]> registry) ∅ parsed).
Proof. intros Hdefs. apply parse_structs_loop_typedefs; [done|lia]. Qed.

(** X15: a typedef whose body is not followed by a closing brace and a name
    is a [ValueError]: the body may end the tokens, the closing brace may be
    the last token, or something other than an identifier may follow it. *)
Theorem unnamed_typedef_raises_value_error
    (statements : list (list Token)) (fields : list Field) (closing : list Token) :
  Forall2 statement_of statements fields →
  closing = [] ∨ at_type "RBRACE" closing = true →
  at_type "ID" (skip_type "RBRACE" closing) = false →
  parse_typedef_structs
    ([MkToken "ID" "typedef"; MkToken "ID" "struct"; MkToken "LBRACE" "{"]
     ++ (statements ≫= λ statement, statement ++ [MkToken "SEMICOLON" ";"]) ++ closing)
  = Raise ValueError.
Proof.
  intros Hst Hclosing Hname. unfold parse_typedef_structs.
  cbn [app length]. rewrite parse_structs_loop_typedef.
  rewrite (parse_fields_statements statements fields []);
    [|done|done|
     pose proof (statements_length statements); cbn [length]; rewrite length_app; lia].
  rewrite bind_ok. cbn [app].
  destruct (skip_type "RBRACE" closing) as [|t rest]; [done|].
  cbn [at_type] in Hname. by rewrite Hname.
Qed.

Lemma flatten_unloaded em struct_name source_prefix output_prefix :
  flatten_struct_fields ∅ em recursion_limit struct_name source_prefix output_prefix = Ok [].
Proof. change recursion_limit with (S 999). cbn [flatten_struct_fields]. by rewrite lookup_empty. Qed.

Lemma render_unloaded header view text struct_name view_name mapping spec flat_values :
  let self := new header view text struct_name view_name mapping spec in
  check_structure_type self flat_values = Ok true
  ∧ render_instance self flat_values = Ok (FStr "{}", self).
Proof.
  intros self. subst self. unfold check_structure_type, render_instance.
  cbn [structs explicit_mapping new target_struct].
  rewrite flatten_unloaded, !bind_ok. split; [done|].
  cbn [set_flat_fields flat_fields view_tree]. unfold generate_field_map.
  cbn [field_map_loop]. done.
Qed.

Lemma process_items_unloaded header view text struct_name view_name mapping spec items :
  let self := new header view text struct_name view_name mapping spec in
  ∀ result_items,
    process_items self items result_items =
      Ok (result_items ++ replicate (length items) (FStr "{}"), self).
Proof.
  intros self. subst self. induction items as [|item items IH]; intros result_items.
  - by rewrite app_nil_r.
  - cbn [process_items].
    destruct (render_unloaded header view text struct_name view_name mapping spec
                (flatten_initialization item)) as [-> ->].
    rewrite !bind_ok. cbn [negb]. rewrite IH, <-app_assoc. done.
Qed.

(** X16: an object whose loaders were not called, as [mass_process.main]
    uses it, renders no value of the initializer: [process_structure] gives
    the empty braces for one instance and the empty braces once per element
    for an array of structures, whatever the schema files hold.  It never
    gives the empty text, and it leaves the object as it was. *)
Theorem unloaded_object_renders_empty_braces
    (header view text struct_name view_name : string) (mapping : option string)
    (spec init_block : string) (parsed : init) :
  parse_initialization init_block = Ok parsed →
  process_structure (new header view text struct_name view_name mapping spec) init_block =
    Ok (FStr (match parsed with
              | IList ((IList _ :: _) as items) =>
                  "{" +:+ nl +:+ join ("," +:+ nl) (replicate (length items) "{}")
                  +:+ nl +:+ "}"
              | _ => "{}"
              end),
        new header view text struct_name view_name mapping spec).
Proof.
  intros Hparsed. unfold process_structure. rewrite Hparsed, bind_ok.
  pose proof (render_unloaded header view text struct_name view_name mapping spec) as Hone.
  pose proof (process_items_unloaded header view text struct_name view_name mapping spec)
    as Hall.
  cbv zeta in Hone, Hall.
  assert (Hplain : ∀ p,
            (check_structure_type (new header view text struct_name view_name mapping spec)
               (flatten_initialization p) ≫= λ ok,
             if negb ok then Ok (FStr "", new header view text struct_name view_name mapping spec)
             else render_instance (new header view text struct_name view_name mapping spec)
                    (flatten_initialization p))
            = Ok (FStr "{}", new header view text struct_name view_name mapping spec)).
  { intros p. destruct (Hone (flatten_initialization p)) as [-> ->]. done. }
  destruct parsed as [t|[|[t|sub] items]]; cbn [process_parsed]; try apply Hplain.
  rewrite Hall, bind_ok. cbn [app array_output].
  change (FStr "{}" :: replicate (length items) (FStr "{}"))
    with (FStr <$> replicate (length (IList sub :: items)) "{}").
  rewrite <-fmap_replicate.
  by rewrite join_values_texts, bind_ok.
Qed.

Lemma parse_items_flat toks :
  ∀ items rest fuel,
    (∀ t, t ∈ toks → type t ≠ "LBRACE" ∧ type t ≠ "RBRACE") →
    rest = [] ∨ at_type "RBRACE" rest = true →
    (length toks < fuel)%nat →
    parse_items fuel (toks ++ rest) items = Ok (items ++ (IStr <$> scalar_texts toks), rest).
Proof.
  induction toks as [|t toks IH]; intros items rest fuel Hflat Hrest Hfuel;
    (destruct fuel as [|fuel]; [lia|]).
  - rewrite app_nil_r. cbn [app parse_items].
    destruct rest as [|t rest]; [done|]. destruct Hrest as [?|Hrest]; [done|].
    cbn [at_type] in Hrest. by rewrite Hrest.
  - destruct (Hflat t) as [Hopen Hclose]; [left|].
    cbn [app parse_items].
    rewrite (bool_decide_eq_false_2 _ Hclose), (bool_decide_eq_false_2 _ Hopen).
    unfold scalar_texts. rewrite filter_cons.
    destruct (is_scalar_token t) eqn:Hscalar.
    + rewrite decide_True by done. rewrite fmap_cons.
      rewrite IH; [|intros t' Ht'; apply Hflat; by right|done|simpl in Hfuel; lia].
      by rewrite <-app_assoc.
    + rewrite decide_False by done.
      apply IH; [intros t' Ht'; apply Hflat; by right|done|simpl in Hfuel; lia].
Qed.

(** X17: an initializer whose tokens are an opening brace, tokens that are
    no braces, and then a closing brace or nothing, parses to the list of
    the texts of its number, identifier, dot and string tokens, in order;
    commas and other tokens are dropped, and the missing closing brace is
    accepted. *)
Theorem flat_initializer_parses
    (init_text : string) (lbrace : Token) (toks closing : list Token) :
  tokenize (remove_all comment_re init_text) = lbrace :: toks ++ closing →
  type lbrace = "LBRACE" →
  (∀ t, t ∈ toks → type t ≠ "LBRACE" ∧ type t ≠ "RBRACE") →
  closing = [] ∨ at_type "RBRACE" closing = true →
  parse_initialization init_text = Ok (IList (IStr <$> scalar_texts toks)).
Proof.
  intros Htoks Hopen Hflat Hclosing. unfold parse_initialization. rewrite Htoks.
  generalize (eq_refl (2 * length (lbrace :: toks ++ closing) + 2)%nat).
  generalize (2 * length (lbrace :: toks ++ closing) + 2)%nat at 2 3.
  intros [|fuel] Hfuel; [lia|].
  cbn [parse_block at_type tail]. rewrite bool_decide_eq_true_2 by done.
  rewrite (parse_items_flat toks [] closing fuel); [done|done|done|].
  cbn [length] in Hfuel. rewrite length_app in Hfuel. lia.
Qed.

(** X18: the declaration that [extract_declaration_info] stores in the
    object is the first of the declarations that
    [extract_init_declarations_from_text] lists; when the list is empty the
    object is left as it was, without the attributes of a declaration. *)
Theorem first_declaration_is_stored (self : C_deStructor) :
  extract_declaration_info self =
    match extract_init_declarations_from_text (init_text self) (target_struct self) with
    | [] => self
    | (spec, var_name, array_size, init_block) :: _ =>
        set_declaration (if bool_decide (spec = "") then "" else spec +:+ " ")
          var_name array_size init_block self
    end.
Proof.
  unfold extract_declaration_info, extract_init_declarations_from_text, finditer, search.
  cbn [finditer_from].
  destruct (search_from (declaration_re (target_struct self)) None (init_text self))
    as [m|]; [|done].
  match goal with |- context [let '(ms, tl) := ?x in _] => destruct x as [ms tl] end.
  done.
Qed.

Lemma search_from_plain (path : string) :
  ∀ prev,
    string_forall (λ c, negb (bool_decide (c = "["%char))) path = true →
    search_from (seqs [chr "["; plus true d; chr "]"]) prev path = None.
Proof.
  induction path as [|c path IH]; intros prev Hplain; [done|].
  cbn [string_forall] in Hplain. apply andb_true_iff in Hplain as [Hc Hplain].
  cbn [search_from]. unfold match_at. cbn [seqs matches chr m_rest].
  assert (char_is "[" c = false) as ->
    by (unfold char_is; by apply negb_true_iff in Hc).
  cbn [mbind list_bind option_bind head]. fold (seqs [chr "["; plus true d; chr "]"]).
  by rewrite IH.
Qed.

(** X19: [normalize_path] leaves a path without opening bracket as it is. *)
Theorem normalize_path_without_bracket (path : string) :
  string_forall (λ c, negb (bool_decide (c = "["%char))) path = true →
  normalize_path path = path.
Proof.
  intros Hplain. unfold normalize_path, remove_all. cbn [finditer_from].
  by rewrite search_from_plain.
Qed.

Lemma gen_indices_length (dims : list Z) :
  ∀ cur, length (gen_indices dims cur) = index_count dims.
Proof.
  induction dims as [|n dims IH]; intros cur; [done|].
  cbn [gen_indices index_count foldr]. fold (index_count dims).
  rewrite (length_bind_const _ _ (index_count dims)) by (intros; apply IH).
  unfold range. by rewrite length_seq.
Qed.

Lemma index_suffixes_length (dims : list Z) :
  length (index_suffixes dims) = index_count dims.
Proof.
  destruct dims as [|n [|m dims]]; try apply gen_indices_length.
  unfold index_suffixes, range, index_count. rewrite length_fmap, length_seq. simpl. lia.
Qed.

(** X20: a struct with one array field of a primitive type flattens to as
    many names as the product of the dimensions, for any number of
    dimensions (a dimension that is zero or negative gives no name); with
    an empty list of dimensions the field counts as a scalar. *)
Theorem array_field_name_count
    (registry : gmap string (list Field)) (em : option (gmap string string))
    (fuel : nat) (struct_name field_name field_type : string) (dims : list Z)
    (source_prefix output_prefix : string) :
  registry !! struct_name = Some [(field_name, field_type, Some dims)] →
  registry !! field_type = None →
  ∃ names,
    flatten_struct_fields registry em (S fuel) struct_name source_prefix output_prefix
      = Ok names
    ∧ length names = match dims with [] => 1%nat | _ => index_count dims end.
Proof.
  intros Hstruct Hprim. cbn [flatten_struct_fields]. unfold Field in *. rewrite Hstruct.
  cbn [for_extend]. unfold flatten_field. unfold Field in *.
  assert (bool_decide (is_Some (registry !! field_type)) = false) as Hb
    by (rewrite Hprim; apply bool_decide_eq_false_2; by intros [? ?]).
  destruct dims as [|n dims]; eexists; (split; [by rewrite Hb|]); [done|].
  rewrite app_nil_r, length_fmap. apply index_suffixes_length.
Qed.

Section tokens.

Lemma search_from_match r text :
  ∀ prev m,
    search_from r prev text = Some m →
    ∃ prev' text' m',
      match_at r prev' text' = Some m' ∧ group0 m = group0 m' ∧ final m = final m'.
Proof.
  induction text as [|c text IH]; intros prev m; cbn [search_from];
    destruct (match_at r prev _) as [m0|] eqn:Hat.
  - intros ?; simplify_eq. by exists prev, "", m.
  - done.
  - intros ?; simplify_eq. by exists prev, (String c text), m.
  - destruct (search_from r (Some c) text) as [m1|] eqn:Hs; [|done].
    intros ?; simplify_eq/=. by apply (IH (Some c)).
Qed.

Lemma finditer_from_match r fuel :
  ∀ prev text m,
    m ∈ (finditer_from fuel r prev text).1 →
    ∃ prev' text' m',
      match_at r prev' text' = Some m' ∧ group0 m = group0 m' ∧ final m = final m'.
Proof.
  induction fuel as [|fuel IH]; intros prev text m; cbn [finditer_from];
    [by intros ?%elem_of_nil|].
  destruct (search_from r prev text) as [m0|] eqn:Hs; [|by intros ?%elem_of_nil].
  destruct (bool_decide (group0 m0 = "")).
  - destruct (m_rest (final m0)) as [|c text'].
    + intros ->%list_elem_of_singleton. by eapply search_from_match.
    + specialize (IH (Some c) text').
      destruct (finditer_from fuel r (Some c) text') as [[|m1 ms] tl]; cbn [skipped fst].
      * intros ->%list_elem_of_singleton. by eapply search_from_match.
      * intros [->|[->|Hin]%elem_of_cons]%elem_of_cons.
        -- by eapply search_from_match.
        -- apply (IH m1). by left.
        -- apply IH. by right.
  - specialize (IH (m_prev (final m0)) (m_rest (final m0))).
    destruct (finditer_from fuel r _ _) as [ms tl]. cbn [fst] in *.
    intros [->|Hin]%elem_of_cons; [by eapply search_from_match|by apply IH].
Qed.

(** The first match of an alternation of named groups: the group of some
    alternative, after alternatives that do not match. *)
Lemma alts_head (spec : list (string * regex)) :
  ∀ st t st',
    head (matches (alts ((λ pair, Grp pair.1 pair.2) <$> spec)) st) = Some (t, st') →
    spec ≠ [] →
    ∃ (i : nat) name r s1,
      spec !! i = Some (name, r)
      ∧ (∀ (j : nat) p, (j < i)%nat → spec !! j = Some p → matches p.2 st = [])
      ∧ head (matches r st) = Some (t, s1) ∧ st' = close_group name t s1.
Proof.
  induction spec as [|[name r] spec IH]; intros st t st' Hhead Hne; [done|].
  assert (Hcases : matches r st ≠ [] ∨ (matches r st = [] ∧ spec ≠ [] ∧
            head (matches (alts ((λ pair, Grp pair.1 pair.2) <$> spec)) st) = Some (t, st'))).
  { destruct spec as [|p spec].
    - left. cbn [fmap list_fmap alts fst snd matches] in Hhead.
      by destruct (matches r st).
    - destruct (matches r st) as [|x l] eqn:Hr; [right|by left].
      split; [done|]. split; [done|].
      change (alts ((λ pair, Grp pair.1 pair.2) <$> (name, r) :: p :: spec))
        with (Alt (Grp name r) (alts ((λ pair, Grp pair.1 pair.2) <$> p :: spec))) in Hhead.
      cbn [matches] in Hhead. by rewrite Hr in Hhead. }
  destruct Hcases as [Hhit|(Hmiss & Hne' & Hrest)].
  - exists 0%nat, name, r. destruct (matches r st) as [|[t1 s1] l] eqn:Hr; [done|].
    exists s1. split; [done|]. split; [intros; lia|].
    assert (head (matches (alts ((λ pair, Grp pair.1 pair.2) <$> (name, r) :: spec)) st)
            = Some (t1, close_group name t1 s1)) as Hfirst.
    { destruct spec as [|p spec].
      - cbn [fmap list_fmap alts fst snd matches]. by rewrite Hr.
      - change (alts ((λ pair, Grp pair.1 pair.2) <$> (name, r) :: p :: spec))
          with (Alt (Grp name r) (alts ((λ pair, Grp pair.1 pair.2) <$> p :: spec))).
        cbn [matches]. by rewrite Hr. }
    rewrite Hfirst in Hhead. by simplify_eq.
  - destruct (IH st t st' Hrest Hne') as (i & name' & r' & s1 & Hi & Hbefore & Hh & ->).
    exists (S i), name', r', s1. split; [done|]. split; [|done].
    intros [|j] p Hj Hp; [by simplify_eq/=|]. apply (Hbefore j); [lia|done].
Qed.

Lemma identifier_matches st s :
  m_rest st = String "_" s → matches (Seq (Chr is_id_start) (Star true w)) st ≠ [].
Proof.
  intros Hrest. rewrite matches_seq, (matches_chr_hit _ _ "_" s) by done.
  cbn [mbind list_bind]. rewrite app_nil_r, matches_star.
  cbn [star_loop]. unfold then_. intros Hnil%fmap_nil_inv.
  by apply app_eq_nil in Hnil as [_ ?].
Qed.

Lemma other_is_no_underscore prev text m :
  match_at tok_regex prev text = Some m →
  lastgroup m = Some "OTHER" → group0 m ≠ "_".
Proof.
  unfold match_at, lastgroup. intros Hat Hlast Hvalue.
  destruct (head (matches tok_regex _)) as [[t st']|] eqn:Hhead; [|done].
  cbn [mbind option_bind] in Hat. injection Hat as <-. cbn [final group0] in *.
  subst t. unfold tok_regex in Hhead.
  apply alts_head in Hhead as (i & name & r & s1 & Hi & Hbefore & Hh & ->); [|done].
  cbn [close_group m_last] in Hlast. injection Hlast as ->.
  do 13 (destruct i as [|i]; [cbn in Hi; by injection Hi|]).
  destruct i as [|i]; [|done]. cbn in Hi. injection Hi as <-.
  apply head_Some_elem_of, matches_chr_elem in Hh as (c & rest & Hrest & _ & Hc & _).
  simplify_eq. cbn [m_rest] in Hrest. subst text.
  specialize (Hbefore 2%nat ("ID", Seq (Chr is_id_start) (Star true w))).
  specialize (Hbefore ltac:(lia) eq_refl). cbn [snd] in Hbefore.
  by apply (identifier_matches _ rest) in Hbefore.
Qed.

End tokens.

(** X21: [tokenize] never gives a token of the kind OTHER: an underscore
    starts an identifier, and every other character that only OTHER matches
    is dropped. *)
Theorem tokenize_gives_no_other (text : string) (t : Token) :
  t ∈ tokenize text → type t ≠ "OTHER".
Proof.
  unfold tokenize. intros (mo & Hmo & Hin)%list_elem_of_omap Hother.
  unfold finditer in Hmo.
  apply finditer_from_match in Hmo as (prev' & text' & m' & Hat & Hgroup & Hfinal).
  unfold lastgroup in *. rewrite Hgroup, Hfinal in Hin.
  destruct (m_last (final m')) as [kind|] eqn:Hkind; cbn [default] in Hin;
    unfold id in Hin.
  - destruct (bool_decide (kind = "OTHER")) eqn:Hk.
    + apply bool_decide_eq_true in Hk. subst kind. cbn [andb] in Hin.
      destruct (isspace (group0 m')); [done|].
      destruct (bool_decide (group0 m' = "_")) eqn:Hu; [|done].
      apply bool_decide_eq_true in Hu.
      by apply (other_is_no_underscore prev' text' m').
    + cbn [andb] in Hin. injection Hin as <-. cbn [type] in Hother.
      by apply bool_decide_eq_false in Hk.
  - rewrite bool_decide_eq_false_2 in Hin by done. cbn [andb] in Hin.
    injection Hin as <-. done.
Qed.

Section view_recursion.

Context (view_defs : gmap string (list Field)) (recur : string → result vtree).

Lemma view_loop_raise e fields : foldl (view_field_step view_defs recur) (Raise e) fields = Raise e.
Proof. by induction fields. Qed.

Lemma view_loop_raises fields :
  (∀ ty e, recur ty = Raise e → e = RecursionError) →
  ∀ acc e,
    foldl (view_field_step view_defs recur) acc fields = Raise e →
    (∀ e', acc = Raise e' → e' = RecursionError) → e = RecursionError.
Proof.
  intros Hrecur. induction fields as [|[[name ty] dims] fields IH]; intros acc e.
  - simpl. intros -> Hacc. by apply Hacc.
  - cbn [foldl]. intros Hfold Hacc. apply (IH _ _ Hfold). intros e'.
    destruct acc as [tree|e0]; [|intros [= <-]; by apply Hacc].
    unfold view_field_step. rewrite bind_ok.
    destruct (bool_decide _).
    + destruct (recur ty) as [sub|e1] eqn:Hsub.
      * rewrite bind_ok. by destruct dims.
      * intros [= <-]. by apply (Hrecur ty).
    + rewrite bind_ok. by destruct dims.
Qed.

Lemma view_loop_self struct_name field_name dims fields :
  (∀ ty e, recur ty = Raise e → e = RecursionError) →
  is_Some (view_defs !! struct_name) →
  recur struct_name = Raise RecursionError →
  (field_name, struct_name, dims) ∈ fields →
  ∀ tree, foldl (view_field_step view_defs recur) (Ok tree) fields = Raise RecursionError.
Proof.
  intros Hrecur Hdef Hself Hin tree.
  destruct (foldl (view_field_step view_defs recur) (Ok tree) fields) as [out|e] eqn:Hfold.
  - exfalso. revert tree Hfold.
    induction fields as [|fld fields IH]; intros tree Hfold;
      [by apply elem_of_nil in Hin|].
    cbn [foldl] in Hfold.
    destruct (view_field_step view_defs recur (Ok tree) fld) as [tree'|e] eqn:Hstep;
      [|by rewrite view_loop_raise in Hfold].
    apply elem_of_cons in Hin as [<-|Hin]; [|by apply (IH Hin tree')].
    unfold view_field_step in Hstep. rewrite bind_ok in Hstep.
    rewrite bool_decide_eq_true_2, Hself in Hstep by done. done.
  - f_equal. by apply (view_loop_raises fields Hrecur _ _ Hfold).
Qed.

End view_recursion.

Lemma build_view_tree_raises fuel :
  ∀ view_defs struct_name e,
    build_view_tree fuel view_defs struct_name = Raise e → e = RecursionError.
Proof.
  induction fuel as [|fuel IH]; intros view_defs struct_name e; [by intros [= <-]|].
  cbn [build_view_tree]. destruct (view_defs !! struct_name) as [fields|]; [|done].
  match goal with |- context [foldl ?f _ _] => destruct (foldl f (Ok []) fields) eqn:Hfold end;
    [done|].
  intros [= <-].
  apply (view_loop_raises view_defs (build_view_tree fuel view_defs) fields) in Hfold;
    [done| |done].
  intros ty e'. apply IH.
Qed.

(** X22: a view struct with a field of its own type has no view tree: for
    every depth allowed [build_view_tree] ends in [RecursionError], so that
    [load_view_structs] raises it. *)
Theorem view_self_reference_never_builds
    (view_defs : gmap string (list Field)) (struct_name field_name : string)
    (dims : option (list Z)) (fields : list Field) :
  view_defs !! struct_name = Some fields →
  (field_name, struct_name, dims) ∈ fields →
  (∀ fuel, build_view_tree fuel view_defs struct_name = Raise RecursionError)
  ∧ ∀ self,
      parse_view_structs (view_file self) = view_defs → target_view self = struct_name →
      load_view_structs self = Raise RecursionError.
Proof.
  intros Hdefs Hin.
  assert (Hall : ∀ fuel, build_view_tree fuel view_defs struct_name = Raise RecursionError).
  { induction fuel as [|fuel IH]; [done|].
    cbn [build_view_tree]. unfold Field in *. rewrite Hdefs.
    rewrite (view_loop_self view_defs (build_view_tree fuel view_defs)
               struct_name field_name dims fields);
      [done| |by (unfold Field in *; rewrite Hdefs)|done|done].
    intros ty e. apply build_view_tree_raises. }
  split; [done|]. intros self Hview Htarget.
  unfold load_view_structs. by rewrite Hview, Htarget, Hall.
Qed.

(** X23: the text [setPostfix] stores ends in a blank and starts with none,
    and [generate_declaration] puts it right after the name and its
    brackets: the declaration reads name, brackets, postfix, two blanks, the
    equals sign. *)
Theorem postfix_joins_the_name
    (self : C_deStructor) (text init_str var_name pre : string) (size : option string) :
  text ≠ "" →
  prefix self = Some pre → array_size self = Some size →
  generate_declaration (setPostfix self text) init_str var_name =
    Ok (pre +:+ " " +:+ target_struct self +:+ " " +:+ var_name +:+ brackets size
        +:+ text +:+ "  = " +:+ init_str +:+ ";").
Proof.
  intros Htext Hpre Hsize. unfold generate_declaration, setPostfix.
  cbn [set_postfix array_size prefix postfix target_struct].
  rewrite Hpre, Hsize. cbn [getattr]. rewrite !bind_ok.
  rewrite bool_decide_eq_false_2 by done.
  unfold brackets. destruct size as [size|]; [case_bool_decide|]; f_equal;
    repeat (rewrite ?app_assoc_s, ?app_cons, ?app_empty_l); done.
Qed.

Section specifier.

Context (spec : string).

Lemma load_full_structs_specifier self :
  load_full_structs (set_specifier spec self) = set_specifier spec <$> load_full_structs self.
Proof.
  unfold load_full_structs. cbn [set_specifier header_file].
  by destruct (parse_typedef_structs _).
Qed.

Lemma load_view_structs_specifier self :
  load_view_structs (set_specifier spec self) = set_specifier spec <$> load_view_structs self.
Proof.
  unfold load_view_structs. cbn [set_specifier view_file target_view].
  by destruct (build_view_tree _ _ _).
Qed.

Lemma load_mapping_specifier self :
  load_mapping (set_specifier spec self) = set_specifier spec (load_mapping self).
Proof. unfold load_mapping. cbn [set_specifier mapping_file]. by destruct (mapping_file self). Qed.

Lemma extract_declaration_info_specifier self :
  extract_declaration_info (set_specifier spec self)
  = set_specifier spec (extract_declaration_info self).
Proof.
  unfold extract_declaration_info. cbn [set_specifier target_struct init_text].
  by destruct (search _ _).
Qed.

Lemma render_instance_specifier self flat_values :
  render_instance (set_specifier spec self) flat_values
  = (λ r, (r.1, set_specifier spec r.2)) <$> render_instance self flat_values.
Proof.
  unfold render_instance. cbn [set_specifier structs explicit_mapping target_struct].
  destruct (flatten_struct_fields _ _ _ _ _ _) as [names|]; [|done].
  rewrite !bind_ok. cbn [set_flat_fields flat_fields view_tree].
  by destruct (generate_nested_initializer _ _ _).
Qed.

Lemma process_items_specifier items :
  ∀ self result_items,
    process_items (set_specifier spec self) items result_items
    = (λ r, (r.1, set_specifier spec r.2)) <$> process_items self items result_items.
Proof.
  induction items as [|item items IH]; intros self result_items; [done|].
  cbn [process_items].
  change (check_structure_type (set_specifier spec self) (flatten_initialization item))
    with (check_structure_type self (flatten_initialization item)).
  destruct (check_structure_type self _) as [[|]|]; [|by rewrite bind_ok; apply IH|done].
  rewrite !bind_ok. cbn [negb]. rewrite render_instance_specifier.
  destruct (render_instance self _) as [[out self']|]; [|done].
  cbn [fmap result_fmap fst snd]. rewrite !bind_ok. apply IH.
Qed.

Lemma process_structure_specifier self init_block :
  process_structure (set_specifier spec self) init_block
  = (λ r, (r.1, set_specifier spec r.2)) <$> process_structure self init_block.
Proof.
  unfold process_structure. destruct (parse_initialization init_block) as [parsed|]; [|done].
  rewrite !bind_ok.
  assert (Hplain : ∀ p,
    (check_structure_type (set_specifier spec self) (flatten_initialization p) ≫= λ ok,
       if negb ok then Ok (FStr "", set_specifier spec self)
       else render_instance (set_specifier spec self) (flatten_initialization p))
    = (λ r, (r.1, set_specifier spec r.2)) <$>
      (check_structure_type self (flatten_initialization p) ≫= λ ok,
         if negb ok then Ok (FStr "", self)
         else render_instance self (flatten_initialization p))).
  { intros p.
    change (check_structure_type (set_specifier spec self) (flatten_initialization p))
      with (check_structure_type self (flatten_initialization p)).
    destruct (check_structure_type self _) as [[|]|]; [|done..].
    rewrite !bind_ok. cbn [negb]. apply render_instance_specifier. }
  destruct parsed as [t|[|[t|sub] items]]; cbn [process_parsed]; try apply Hplain.
  rewrite process_items_specifier.
  destruct (process_items self _ _) as [[outs self']|]; [|done].
  cbn [fmap result_fmap fst snd]. rewrite !bind_ok. unfold array_output.
  by destruct (join_values _ outs).
Qed.

End specifier.

(** X24: the [specifier] given to the constructor is never used: [run]
    returns the same declaration, or raises the same exception, whatever
    specifier the object holds.  Only [setPostfix] puts a text after the
    name. *)
Theorem specifier_is_never_used (self : C_deStructor) (spec newVarName : string) :
  run (set_specifier spec self) newVarName = run self newVarName.
Proof.
  unfold run. rewrite load_full_structs_specifier.
  destruct (load_full_structs self) as [self1|]; [|done].
  cbn [fmap result_fmap]. rewrite !bind_ok, load_view_structs_specifier.
  destruct (load_view_structs self1) as [self2|]; [|done].
  cbn [fmap result_fmap]. rewrite !bind_ok. cbv zeta.
  rewrite load_mapping_specifier, extract_declaration_info_specifier.
  set (self3 := extract_declaration_info (load_mapping self2)).
  change (init_block (set_specifier spec self3)) with (init_block self3).
  destruct (getattr (init_block self3)) as [block|]; [|done].
  rewrite !bind_ok. case_bool_decide; [done|].
  rewrite process_structure_specifier.
  destruct (process_structure self3 block) as [[out self4]|]; [|done].
  cbn [fmap result_fmap fst snd]. rewrite !bind_ok.
  change (var_nameSrc (set_specifier spec self4)) with (var_nameSrc self4).
  destruct (if bool_decide (newVarName = "") then getattr (var_nameSrc self4)
            else Ok newVarName); [|done].
  rewrite !bind_ok. done.
Qed.

Lemma for_extend_ok {A B : Type} (f : A → result (list B)) (g : A → list B)
    (items : list A) :
  (∀ x, x ∈ items → f x = Ok (g x)) → for_extend f items = Ok (items ≫= g).
Proof.
  induction items as [|x xs IH]; intros Hfg; [done|].
  cbn [for_extend]. rewrite Hfg by left. rewrite bind_ok, IH, bind_ok; [done|].
  intros y Hy. apply Hfg. by right.
Qed.

Lemma flatten_scalars_under registry em fuel struct_name (fields : list Field)
    source_prefix output_prefix :
  (∀ key, mapping_has em key = false) →
  output_prefix ≠ "" →
  registry !! struct_name = Some fields →
  (∀ name ty dims, (name, ty, dims) ∈ fields → dims = None ∧ registry !! ty = None) →
  flatten_struct_fields registry em (S fuel) struct_name source_prefix output_prefix =
    Ok ((λ fld, output_prefix +:+ "_" +:+ field_name_of fld) <$> fields).
Proof.
  intros Hno Hop Hreg Hfields. cbn [flatten_struct_fields]. unfold Field in *.
  rewrite Hreg. clear Hreg.
  induction fields as [|[[name ty] dims] fields IH]; [done|].
  destruct (Hfields name ty dims ltac:(left)) as (-> & Hty).
  cbn [for_extend]. rewrite flatten_field_scalar by done.
  unfold new_output_prefix, current_output. rewrite !Hno. cbn [orb].
  rewrite bool_decide_eq_false_2 by done. rewrite bind_ok.
  rewrite IH; [done|]. intros n t ds Hin. apply (Hfields n t ds). by right.
Qed.

Lemma flatten_struct_fields_step registry em fuel struct_name source_prefix output_prefix :
  flatten_struct_fields registry em (S fuel) struct_name source_prefix output_prefix =
    match registry !! struct_name with
    | None => Ok []
    | Some fields =>
        for_extend (flatten_field registry em (flatten_struct_fields registry em fuel)
                      source_prefix output_prefix) fields
    end.
Proof. done. Qed.

(** X25: without mapping table, the names of a nested struct of scalars are
    the name of the field that holds it, an underscore, and the name of the
    inner field; for an array of [n] such structs the index stands between
    the two, and the elements follow each other in the order of the
    indices. *)
Theorem nested_names_are_prefixed
    (registry : gmap string (list Field)) (em : option (gmap string string))
    (fuel : nat) (struct_name field_name inner_type : string) (inner : list Field)
    (n : nat) :
  (∀ key, mapping_has em key = false) →
  field_name ≠ "" →
  registry !! inner_type = Some inner →
  (∀ name ty dims, (name, ty, dims) ∈ inner → dims = None ∧ registry !! ty = None) →
  (registry !! struct_name = Some [(field_name, inner_type, None)] →
   flatten_struct_fields registry em (S (S fuel)) struct_name "" "" =
     Ok ((λ fld, field_name +:+ "_" +:+ field_name_of fld) <$> inner))
  ∧ (registry !! struct_name = Some [(field_name, inner_type, Some [Z.of_nat n])] →
     flatten_struct_fields registry em (S (S fuel)) struct_name "" "" =
       Ok (i ← seq 0 n;
           (λ fld, (field_name +:+ "_" +:+ fmt i) +:+ "_" +:+ field_name_of fld) <$> inner)).
Proof.
  intros Hno Hname Hinner Hfields.
  assert (Hroot : new_output_prefix em "" "" field_name = field_name)
    by (by apply new_output_prefix_root).
  assert (His : bool_decide (is_Some (registry !! inner_type)) = true)
    by (apply bool_decide_eq_true_2; by rewrite Hinner).
  split; intros Hstruct.
  - rewrite flatten_struct_fields_step. unfold Field in *. rewrite Hstruct.
    cbn [for_extend]. unfold flatten_field. unfold Field in *. rewrite His, Hroot.
    rewrite (flatten_scalars_under registry em fuel inner_type inner) by done.
    rewrite !bind_ok. by rewrite app_nil_r.
  - rewrite flatten_struct_fields_step. unfold Field in *. rewrite Hstruct.
    cbn [for_extend]. unfold flatten_field. unfold Field in *. rewrite His, Hroot.
    unfold index_suffixes, range. rewrite Nat2Z.id.
    rewrite (for_extend_ok _
               (λ idx, (λ fld, (field_name +:+ "_" +:+ idx) +:+ "_" +:+ field_name_of fld)
                       <$> inner)).
    + rewrite !bind_ok, app_nil_r. f_equal. by rewrite list_fmap_bind.
    + intros idx _.
      apply (flatten_scalars_under registry em fuel inner_type inner); try done.
      destruct field_name; [done|]. by rewrite app_cons.
Qed.

(** ** The mapping file *)

Section mapping_lines.

Lemma rev_app_acc (s acc : string) :
  String.rev_app s acc = String.rev s +:+ acc.
Proof.
  unfold String.rev. revert acc. induction s as [|c s IH]; intros acc.
  - by rewrite app_empty_l.
  - cbn [String.rev_app]. rewrite (IH (String c acc)), (IH (String c "")).
    by rewrite app_assoc_s, app_cons, app_empty_l.
Qed.

Lemma rev_app_s (a b : string) : String.rev (a +:+ b) = String.rev b +:+ String.rev a.
Proof.
  induction a as [|c a IH].
  - by rewrite app_empty_l, app_empty_r.
  - rewrite app_cons. unfold String.rev in *. cbn [String.rev_app].
    rewrite (rev_app_acc (a +:+ b)), (rev_app_acc a). unfold String.rev.
    by rewrite IH, app_assoc_s.
Qed.

Lemma rev_rev (s : string) : String.rev (String.rev s) = s.
Proof.
  induction s as [|c s IH]; [done|].
  unfold String.rev at 2. cbn [String.rev_app]. rewrite rev_app_acc, rev_app_s, IH.
  done.
Qed.

Lemma string_forall_app p (a b : string) :
  string_forall p (a +:+ b) = string_forall p a && string_forall p b.
Proof.
  induction a as [|c a IH]; [by rewrite app_empty_l|].
  rewrite app_cons. cbn [string_forall]. rewrite IH. by destruct (p c).
Qed.

Lemma string_forall_rev p (s : string) :
  string_forall p (String.rev s) = string_forall p s.
Proof.
  induction s as [|c s IH]; [done|].
  unfold String.rev. cbn [String.rev_app]. rewrite rev_app_acc, string_forall_app, IH.
  cbn [string_forall]. by destruct (p c), (string_forall p s).
Qed.

Lemma string_forall_impl (p q : ascii → bool) (s : string) :
  (∀ c, p c = true → q c = true) → string_forall p s = true → string_forall q s = true.
Proof.
  intros Hpq. induction s as [|c s IH]; [done|]. cbn [string_forall].
  intros [Hc Hs]%andb_true_iff. by rewrite (Hpq c Hc), IH.
Qed.

Lemma lstrip_by_head p c (s : string) :
  p c = false → lstrip_by p (String c s) = String c s.
Proof. intros Hc. cbn [lstrip_by]. by rewrite Hc. Qed.

Lemma lstrip_by_none p (s : string) :
  string_forall (λ c, negb (p c)) s = true → lstrip_by p s = s.
Proof.
  destruct s as [|c s]; [done|]. cbn [string_forall].
  intros [Hc _]%andb_true_iff. apply lstrip_by_head. by apply negb_true_iff.
Qed.

Lemma strip_none (s : string) :
  string_forall (λ c, negb (is_space c)) s = true → strip s = s.
Proof.
  intros Hs. unfold strip, rstrip_by. rewrite (lstrip_by_none _ s) by done.
  rewrite lstrip_by_none by (by rewrite string_forall_rev). apply rev_rev.
Qed.

(** A line without blank, read with its line feed, is stripped to itself. *)
Lemma strip_line (s : string) :
  s ≠ "" → string_forall (λ c, negb (is_space c)) s = true → strip (s +:+ nl) = s.
Proof.
  intros Hne Hs. unfold strip.
  assert (lstrip_by is_space (s +:+ nl) = s +:+ nl) as ->.
  { destruct s as [|c s]; [done|]. rewrite app_cons. apply lstrip_by_head.
    cbn [string_forall] in Hs. apply andb_true_iff in Hs as [Hc _].
    by apply negb_true_iff. }
  unfold rstrip_by. rewrite rev_app_s.
  change (String.rev nl) with nl. unfold nl at 1. rewrite app_cons, app_empty_l.
  cbn [lstrip_by]. change (is_space newline) with true. cbv iota.
  rewrite lstrip_by_none by (by rewrite string_forall_rev). apply rev_rev.
Qed.

Lemma split_once_colon (key value : string) :
  string_forall (λ c, negb (bool_decide (c = ":"%char))) key = true →
  split_once ":" (key +:+ ":" +:+ value) = Some (key, value).
Proof.
  induction key as [|c key IH]; intros Hkey.
  - by rewrite app_empty_l, app_cons, app_empty_l.
  - cbn [string_forall] in Hkey. apply andb_true_iff in Hkey as [Hc Hkey].
    rewrite app_cons. cbn [split_once]. apply negb_true_iff in Hc. rewrite Hc.
    by rewrite IH.
Qed.

Lemma readlines_go_line (s : string) :
  ∀ cur,
    no_newline s = true →
    readlines_go cur (s +:+ nl) = [String.rev cur +:+ s +:+ nl].
Proof.
  unfold no_newline.
  induction s as [|c s IH]; intros cur Hs.
  - rewrite !app_empty_l. unfold nl. cbn [readlines_go].
    rewrite bool_decide_eq_true_2 by done. cbn [readlines_go].
    rewrite bool_decide_eq_true_2 by done.
    unfold String.rev at 1. cbn [String.rev_app]. by rewrite rev_app_acc.
  - cbn [string_forall] in Hs. apply andb_true_iff in Hs as [Hc Hs].
    rewrite app_cons. cbn [readlines_go]. apply negb_true_iff in Hc. rewrite Hc.
    rewrite IH by done. unfold String.rev at 1. cbn [String.rev_app].
    by rewrite rev_app_acc, app_assoc_s, app_cons, app_empty_l.
Qed.

Lemma readlines_go_app (c rest : string) :
  ∀ cur,
    readlines_go cur ((c +:+ nl) +:+ rest) =
    readlines_go cur (c +:+ nl) ++ readlines_go "" rest.
Proof.
  induction c as [|a c IH]; intros cur.
  - rewrite app_empty_l. unfold nl. rewrite app_cons, app_empty_l.
    cbn [readlines_go]. rewrite bool_decide_eq_true_2 by done.
    cbn [readlines_go]. by rewrite bool_decide_eq_true_2 by done.
  - rewrite !app_cons. cbn [readlines_go]. case_bool_decide; [|apply IH].
    by rewrite IH.
Qed.

End mapping_lines.

(** X26: a mapping file that ends in a line key:value without blank, whose
    key has no colon and does not start a comment, gives the table of the
    lines before it with the key set to the value: the line is read back as
    written, and a later line of a key replaces an earlier one. *)
Theorem mapping_line_sets_key
    (self self0 : C_deStructor) (content key value : string) :
  mapping_file self0 = Some content →
  mapping_file self = Some (content +:+ key +:+ ":" +:+ value +:+ nl) →
  content = "" ∨ (∃ lines, content = lines +:+ nl) →
  string_forall (λ c, negb (is_space c)) key = true →
  string_forall (λ c, negb (is_space c)) value = true →
  string_forall (λ c, negb (bool_decide (c = ":"%char))) key = true →
  startswith "#" key = false →
  explicit_mapping (load_mapping self) =
    <[key := value]> (explicit_mapping (load_mapping self0)).
Proof.
  intros Hfile0 Hfile Hcontent Hkey Hvalue Hcolon Hcomment.
  unfold load_mapping. rewrite Hfile0, Hfile. cbn [explicit_mapping set_explicit_mapping].
  set (line := key +:+ ":" +:+ value).
  assert (Hline : string_forall (λ c, negb (is_space c)) line = true).
  { unfold line. by rewrite !string_forall_app, Hkey, Hvalue. }
  assert (Hne : line ≠ "").
  { unfold line. destruct key; [by rewrite app_empty_l, app_cons|by rewrite app_cons]. }
  assert (Hlines : readlines (content +:+ key +:+ ":" +:+ value +:+ nl)
                   = readlines content ++ [line +:+ nl]).
  { replace (content +:+ key +:+ ":" +:+ value +:+ nl) with (content +:+ line +:+ nl)
      by (unfold line; by rewrite !app_assoc_s).
    assert (Hone : readlines_go "" (line +:+ nl) = [line +:+ nl]).
    { rewrite readlines_go_line; [by rewrite app_empty_l|].
      apply (string_forall_impl (λ c, negb (is_space c))); [|done].
      intros c Hc. apply negb_true_iff, bool_decide_eq_false_2. intros ->. done. }
    unfold readlines. destruct Hcontent as [->|[lines ->]].
    - by rewrite app_empty_l.
    - by rewrite readlines_go_app, Hone. }
  rewrite Hlines, foldl_app. cbn [foldl].
  rewrite strip_line by done.
  rewrite (bool_decide_eq_false_2 (line = "")) by done.
  assert (startswith "#" line = false) as ->.
  { unfold line. destruct key as [|c key]; [by rewrite app_empty_l, app_cons|].
    by rewrite app_cons. }
  cbn [negb andb]. unfold line. rewrite split_once_colon by done.
  by rewrite !strip_none by done.
Qed.

(** ** The further properties at concrete inputs *)

Lemma flatten_scalars_witness :
  flatten_struct_fields pair_structs (Some {["other" := "o"]}) 1 "pair" "" ""
    = Ok ["a"; "b"].
Proof.
  apply (flatten_scalars_in_declaration_order pair_structs (Some {["other" := "o"]}) 0
           "pair" pair_fields).
  - vm_compute. reflexivity.
  - intros name ty dims Hin.
    repeat (apply elem_of_cons in Hin as [Hin|Hin];
            [injection Hin as -> -> ->; repeat split; vm_compute; reflexivity|]).
    by apply elem_of_nil in Hin.
Defined.

Lemma flatten_self_reference_witness :
  flatten_struct_fields node_structs None 5 "node" "" "" = Raise RecursionError.
Proof.
  apply (flatten_self_reference_never_returns node_structs None "node" "next" node_fields).
  - vm_compute. reflexivity.
  - right. left.
Defined.


Lemma array_of_leaves_witness :
  generate_nested_initializer (VDict [("v", leaf_array 3 "int")])
    (generate_field_map ((λ i, "v" +:+ "_" +:+ fmt i) <$> seq 0 3) ["1"; "2"; "3"]) ""
  = Ok (FStr ("{" +:+ ("{" +:+ join ", " (replicate 3 "0") +:+ "}") +:+ "}")).
Proof.
  apply (proj2 (array_of_leaves_renders_zeros "v" "int" 3 ["1"; "2"; "3"]
                  ltac:(discriminate) eq_refl)).
Defined.

Lemma flat_leaves_witness :
  generate_nested_initializer (VDict (zip ["a"; "b"] (VStr <$> ["int"; "float"])))
    (generate_field_map ["a"; "b"] ["1"; "2.5"]) ""
  = Ok (FStr ("{" +:+ join ", " ["1"; "2.5"] +:+ "}")).
Proof.
  apply flat_leaves_render_the_values.
  - apply (bool_decide_unpack _). vm_compute. exact I.
  - intros x Hin.
    repeat (apply elem_of_cons in Hin as [->|Hin]; [vm_compute; reflexivity|]).
    by apply elem_of_nil in Hin.
  - reflexivity.
  - reflexivity.
Defined.

Lemma rendering_raises_witness :
  generate_nested_initializer (VDict [("v", VStr "int")]) {["v" := FList ["1"; "2"]]} ""
    = Raise TypeError
  ∧ TypeError = TypeError.
Proof.
  split; [vm_compute; reflexivity|].
  apply (rendering_raises_only_type_error (VDict [("v", VStr "int")])
           {["v" := FList ["1"; "2"]]} "").
  vm_compute. reflexivity.
Defined.

Lemma list_under_leaf_witness :
  generate_nested_initializer (VDict [("x", VStr "int"); ("v", VStr "int")])
    (generate_field_map ["x"; "v_0"; "v_1"] ["7"; "1"; "2"]) ""
  = Raise TypeError.
Proof.
  apply (list_under_leaf_raises_type_error _ _ "" "v" "int" ["1"; "2"]).
  - right. left.
  - vm_compute. reflexivity.
Defined.

Lemma view_tree_witness :
  build_view_tree 1 row_structs "row"
    = Ok (VDict [("n", VStr "int"); ("v", leaf_array 3 "float")]).
Proof.
  apply (view_tree_of_primitive_fields row_structs 0 "row"
           [("n", "int", None); ("v", "float", Some [3])]).
  - vm_compute. reflexivity.
  - apply (bool_decide_unpack _). vm_compute. exact I.
  - intros name ty dims Hin.
    repeat (apply elem_of_cons in Hin as [Hin|Hin];
            [injection Hin as -> -> ->; vm_compute; reflexivity|]).
    by apply elem_of_nil in Hin.
Defined.

Lemma process_structure_on_scalars_witness :
  process_structure (loaded pair_object) "{1, 2.5, 3}"
    = Ok (FStr ("{" +:+ join ", " ["1"; "2.5"] +:+ "}"),
          set_flat_fields ["a"; "b"] (loaded pair_object))
  ∧ process_structure (loaded pair_object) "{1}" = Ok (FStr "", loaded pair_object).
Proof.
  split.
  - apply (process_structure_on_scalars (loaded pair_object) "{1, 2.5, 3}" pair_fields
             ["1"; "2.5"; "3"]).
    + vm_compute. reflexivity.
    + vm_compute. reflexivity.
    + vm_compute. reflexivity.
    + vm_compute. reflexivity.
    + apply (bool_decide_unpack _). vm_compute. exact I.
    + intros name ty dims Hin.
      repeat (apply elem_of_cons in Hin as [Hin|Hin];
              [injection Hin as -> -> ->; repeat split; vm_compute; reflexivity|]).
      by apply elem_of_nil in Hin.
  - apply (process_structure_on_scalars (loaded pair_object) "{1}" pair_fields ["1"]).
    + vm_compute. reflexivity.
    + vm_compute. reflexivity.
    + vm_compute. reflexivity.
    + vm_compute. reflexivity.
    + apply (bool_decide_unpack _). vm_compute. exact I.
    + intros name ty dims Hin.
      repeat (apply elem_of_cons in Hin as [Hin|Hin];
              [injection Hin as -> -> ->; repeat split; vm_compute; reflexivity|]).
      by apply elem_of_nil in Hin.
Defined.

Lemma no_typedef_witness :
  parse_typedef_structs
    [MkToken "ID" "struct"; MkToken "ID" "pair"; MkToken "LBRACE" "{"; MkToken "ID" "int";
     MkToken "ID" "a"; MkToken "SEMICOLON" ";"; MkToken "RBRACE" "}"; MkToken "SEMICOLON" ";"]
  = Ok ∅.
Proof.
  apply no_typedef_gives_empty_registry. intros t Hin.
  repeat (apply elem_of_cons in Hin as [->|Hin]; [intros [_ Hv]; discriminate Hv|]).
  by apply elem_of_nil in Hin.
Defined.

Lemma parse_field_statement_witness :
  parse_field ([MkToken "ID" "unsigned"; MkToken "ID" "int"]
               ++ MkToken "ID" "grid" :: dim_tokens ["2"; "3"])
  = Ok ("grid", "unsigned int", Some [2; 3]).
Proof.
  apply (parse_field_statement [MkToken "ID" "unsigned"; MkToken "ID" "int"]
           (MkToken "ID" "grid") ["2"; "3"] [2; 3]).
  - discriminate.
  - repeat (constructor; [vm_compute; reflexivity|]). constructor.
Defined.

Lemma pair_statements_fields : Forall2 statement_of pair_statements pair_fields.
Proof.
  repeat (constructor;
          [split; [|split; [|split]];
           [discriminate
           |intros t Hin;
            repeat (apply elem_of_cons in Hin as [->|Hin]; [discriminate|]);
            by apply elem_of_nil in Hin
           |reflexivity
           |vm_compute; reflexivity]|]).
  constructor.
Defined.

Lemma parse_typedef_witness :
  parse_typedef_structs (typedef_tokens "pair" pair_statements) = Ok {["pair" := pair_fields]}.
Proof. apply parse_typedef_of_statements, pair_statements_fields. Defined.

Lemma parse_header_witness :
  parse_typedef_structs
    (header_tokens [("pair", pair_statements); ("pair", []); ("other", pair_statements)])
  = Ok (foldl (λ registry p, <[p.1 := p.2]> registry) ∅
          [("pair", pair_fields); ("pair", []); ("other", pair_fields)]).
Proof.
  apply parse_header_of_typedefs.
  repeat (constructor; [split; [reflexivity|]; try apply pair_statements_fields; constructor|]).
  constructor.
Defined.

Lemma unnamed_typedef_witness :
  parse_typedef_structs
    ([MkToken "ID" "typedef"; MkToken "ID" "struct"; MkToken "LBRACE" "{"]
     ++ (pair_statements ≫= λ statement, statement ++ [MkToken "SEMICOLON" ";"])
     ++ [MkToken "RBRACE" "}"; MkToken "SEMICOLON" ";"])
  = Raise ValueError.
Proof.
  apply (unnamed_typedef_raises_value_error pair_statements pair_fields).
  - apply pair_statements_fields.
  - right. reflexivity.
  - reflexivity.
Defined.

Lemma unloaded_object_witness :
  process_structure (new pair_header pair_header "" "pair" "pair" None "") "{1, 2.5}"
    = Ok (FStr "{}", new pair_header pair_header "" "pair" "pair" None "")
  ∧ process_structure (new pair_header pair_header "" "pair" "pair" None "") "{{1, 2}, {3, 4}}"
    = Ok (FStr ("{" +:+ nl +:+ join ("," +:+ nl) (replicate 2 "{}") +:+ nl +:+ "}"),
          new pair_header pair_header "" "pair" "pair" None "").
Proof.
  split.
  - apply (unloaded_object_renders_empty_braces pair_header pair_header "" "pair" "pair"
             None "" "{1, 2.5}" (IList [IStr "1"; IStr "2.5"])).
    vm_compute. reflexivity.
  - apply (unloaded_object_renders_empty_braces pair_header pair_header "" "pair" "pair"
             None "" "{{1, 2}, {3, 4}}"
             (IList [IList [IStr "1"; IStr "2"]; IList [IStr "3"; IStr "4"]])).
    vm_compute. reflexivity.
Defined.

Lemma flat_initializer_witness :
  parse_initialization "{1, /* two */ 2.5, x" = Ok (IList [IStr "1"; IStr "2.5"; IStr "x"]).
Proof.
  apply (flat_initializer_parses "{1, /* two */ 2.5, x" (MkToken "LBRACE" "{")
           [MkToken "NUMBER" "1"; MkToken "COMMA" ","; MkToken "NUMBER" "2.5";
            MkToken "COMMA" ","; MkToken "ID" "x"] []).
  - vm_compute. reflexivity.
  - reflexivity.
  - intros t Hin.
    repeat (apply elem_of_cons in Hin as [->|Hin]; [split; discriminate|]).
    by apply elem_of_nil in Hin.
  - left. reflexivity.
Defined.

Lemma normalize_path_witness : normalize_path "unit.pos.x" = "unit.pos.x".
Proof. apply normalize_path_without_bracket. reflexivity. Defined.

Lemma array_field_count_witness :
  ∃ names,
    flatten_struct_fields grid_structs None 1 "grid" "" "" = Ok names
    ∧ length names = index_count [2; 3; 4].
Proof.
  apply (array_field_name_count grid_structs None 0 "grid" "g" "int" [2; 3; 4] "" "").
  - vm_compute. reflexivity.
  - vm_compute. reflexivity.
Defined.

Lemma tokenize_witness :
  MkToken "ID" "_" ∈ tokenize "a _ $b" ∧ type (MkToken "ID" "_") ≠ "OTHER".
Proof.
  assert (Hin : MkToken "ID" "_" ∈ tokenize "a _ $b").
  { vm_compute. right. left. }
  split; [exact Hin|].
  apply (tokenize_gives_no_other "a _ $b" _ Hin).
Defined.

Lemma view_self_reference_witness :
  build_view_tree 5 node_structs "node" = Raise RecursionError.
Proof.
  apply (proj1 (view_self_reference_never_builds node_structs "node" "next" None node_fields
                  ltac:(vm_compute; reflexivity) ltac:(right; left))).
Defined.

Lemma postfix_witness :
  generate_declaration (setPostfix pair_declared "PROGMEM") "{}" "q"
    = Ok ("static " +:+ " " +:+ target_struct pair_declared +:+ " " +:+ "q"
          +:+ brackets (Some "2") +:+ "PROGMEM" +:+ "  = " +:+ "{}" +:+ ";").
Proof.
  apply (postfix_joins_the_name pair_declared "PROGMEM" "{}" "q" "static " (Some "2")).
  - discriminate.
  - vm_compute. reflexivity.
  - vm_compute. reflexivity.
Defined.


Lemma nested_names_witness :
  flatten_struct_fields line_structs None 2 "seg" "" "" = Ok ["p_x"; "p_y"]
  ∧ flatten_struct_fields line_structs None 2 "line" "" ""
    = Ok ["p_0_x"; "p_0_y"; "p_1_x"; "p_1_y"].
Proof.
  assert (Hinner : ∀ name ty dims,
            (name, ty, dims) ∈ [("x", "int", None); ("y", "int", @None (list Z))] →
            dims = None ∧ line_structs !! ty = None).
  { intros name ty dims Hin.
    repeat (apply elem_of_cons in Hin as [Hin|Hin];
            [injection Hin as -> -> ->; split; vm_compute; reflexivity|]).
    by apply elem_of_nil in Hin. }
  split.
  - apply (proj1 (nested_names_are_prefixed line_structs None 0 "seg" "p" "pt"
                    [("x", "int", None); ("y", "int", None)] 0
                    (λ _, eq_refl) ltac:(discriminate) ltac:(vm_compute; reflexivity) Hinner)).
    vm_compute. reflexivity.
  - apply (proj2 (nested_names_are_prefixed line_structs None 0 "line" "p" "pt"
                    [("x", "int", None); ("y", "int", None)] 2
                    (λ _, eq_refl) ltac:(discriminate) ltac:(vm_compute; reflexivity) Hinner)).
    vm_compute. reflexivity.
Defined.


Lemma mapping_line_witness :
  explicit_mapping
    (load_mapping (new "" "" "" "unit" "unit"
                     (Some ("# names" +:+ nl +:+ "pos.x:px" +:+ nl +:+ "pos.x" +:+ ":" +:+ "x" +:+ nl))
                     ""))
  = <["pos.x" := "x"]>
      (explicit_mapping
         (load_mapping (new "" "" "" "unit" "unit"
                          (Some ("# names" +:+ nl +:+ "pos.x:px" +:+ nl)) ""))).
Proof.
  apply (mapping_line_sets_key _ _ ("# names" +:+ nl +:+ "pos.x:px" +:+ nl) "pos.x" "x").
  - reflexivity.
  - vm_compute. reflexivity.
  - right. exists ("# names" +:+ nl +:+ "pos.x:px"). vm_compute. reflexivity.
  - reflexivity.
  - reflexivity.
  - reflexivity.
  - reflexivity.
Defined.

